(** * Serene AI: the audio decode-and-playback pipeline and its orchestration

    A shallow embedding of [src/App.tsx] (the React component [App] with its
    handlers [handleSendMessage] and [handlePlayPause]), of the service
    functions of [services/geminiService] and of the two helpers imported
    from [utils/audioUtils] ([decode] and [decodeAudioData]).

    The component state lives in a record, the Web Audio objects it talks to
    in a small store next to it, and every handler is a function on that
    pair.  The [async] handler is cut at its [await]s into the steps the
    event loop runs; between two events the component has re-rendered, so
    a handler reads the current state.

    The module [utils/audioUtils] itself is not among the sources: [decode]
    and [decodeAudioData] follow sections 4.1 and 4.2 of the specification.
    Numbers are IEEE 754 binary64 values, computed with [SpecFloat]. *)

From Stdlib Require Import ZArith QArith Lia List Bool Ascii String Strings.Byte SpecFloat.
From stdpp Require Import base option list strings.

Local Open Scope Z_scope.

(** ** Errors and the result monad *)

(** The error taxonomy of the pipeline: what [atob]-style decoding raises,
    and what a rejected provider promise carries. *)
Inductive error : Type :=
| MalformedEncodingError
| ProviderCallError.

Inductive result (A : Type) : Type :=
| Ok (a : A)
| Err (e : error).

Arguments Ok {A} a.
Arguments Err {A} e.

#[global] Instance result_ret : MRet result := fun A a => Ok a.
#[global] Instance result_bind : MBind result := fun A B f r =>
  match r with
  | Ok a => f a
  | Err e => Err e
  end.

Definition is_ok {A} (r : result A) : bool :=
  match r with Ok _ => true | Err _ => false end.

(** ** utils/audioUtils: bytes *)

Module AudioUtils.

(** A [Uint8Array] is a [list byte]; arithmetic on its elements goes
    through [Z]. *)
Definition byte_to_Z (b : byte) : Z := Z.of_N (Byte.to_N b).

Definition byte_of_Z (z : Z) : byte :=
  default x00 (Byte.of_N (Z.to_N (z mod 256))).

(** The integers [0, 1, ..., n-1]. *)
Definition upto (n : nat) : list Z := map Z.of_nat (seq 0 n).

(** *** Base64 *)

Definition alphabet : string :=
  "ABCDEFGHIJKLMNOPQRSTUVWXYZabcdefghijklmnopqrstuvwxyz0123456789+/".

Definition pad : ascii := "="%char.

Definition is_pad (c : ascii) : bool := Ascii.eqb c pad.

(** Position of a character in the alphabet string, the value RFC 4648
    assigns to it. *)
Fixpoint index_in (c : ascii) (s : string) : option nat :=
  match s with
  | EmptyString => None
  | String c' s' => if Ascii.eqb c c' then Some 0%nat else S <$> index_in c s'
  end.

Definition alphabet_index (c : ascii) : option nat := index_in c alphabet.

Definition in_alphabet (c : ascii) : bool :=
  match alphabet_index c with
  | Some _ => true
  | None => false
  end.

(** Modelled from the spec: the table lookup of [decode], by character
    ranges; a character outside the alphabet is a
    [MalformedEncodingError]. *)
Definition sextet_of_char (c : ascii) : result Z :=
  let n := Z.of_N (N_of_ascii c) in
  if (65 <=? n) && (n <=? 90) then Ok (n - 65)
  else if (97 <=? n) && (n <=? 122) then Ok (n - 71)
  else if (48 <=? n) && (n <=? 57) then Ok (n + 4)
  else if n =? 43 then Ok 62
  else if n =? 47 then Ok 63
  else Err MalformedEncodingError.

(** Modelled from the spec: the table lookup of [encode]. *)
Definition char_of_sextet (n : Z) : ascii :=
  default pad (String.get (Z.to_nat n) alphabet).

(** Modelled from the spec: the body of [decode] in [utils/audioUtils] is
    not part of the sources at hand.  One full group of four characters
    carries three bytes. *)
Definition decode_quad (a b c d : ascii) : result (list byte) :=
  sa ← sextet_of_char a;
  sb ← sextet_of_char b;
  sc ← sextet_of_char c;
  sd ← sextet_of_char d;
  Ok [byte_of_Z (sa * 4 + sb / 16);
      byte_of_Z ((sb mod 16) * 16 + sc / 4);
      byte_of_Z ((sc mod 4) * 64 + sd)].

(** Modelled from the spec: the last group of [decode] may end in one or two
    padding characters and then carries two bytes or one. *)
Definition decode_last (a b c d : ascii) : result (list byte) :=
  if is_pad d then
    if is_pad c then
      sa ← sextet_of_char a;
      sb ← sextet_of_char b;
      Ok [byte_of_Z (sa * 4 + sb / 16)]
    else
      sa ← sextet_of_char a;
      sb ← sextet_of_char b;
      sc ← sextet_of_char c;
      Ok [byte_of_Z (sa * 4 + sb / 16);
          byte_of_Z ((sb mod 16) * 16 + sc / 4)]
  else decode_quad a b c d.

(** Modelled from the spec: the loop of [decode] over groups of four
    characters; a text whose length is not a multiple of four is
    malformed. *)
Fixpoint decode_chars (cs : list ascii) : result (list byte) :=
  match cs with
  | [] => Ok []
  | a :: b :: c :: d :: rest =>
      match rest with
      | [] => decode_last a b c d
      | _ :: _ =>
          front ← decode_quad a b c d;
          back ← decode_chars rest;
          Ok (front ++ back)
      end
  | _ => Err MalformedEncodingError
  end.

(** Modelled from the spec: [decode] of [utils/audioUtils] (section 4.1),
    from a standard base64 string to the decoded bytes in order, failing
    with [MalformedEncodingError] on a character outside the alphabet or on
    invalid padding.  A pure function. *)
Definition decode (base64 : string) : result (list byte) :=
  decode_chars (list_ascii_of_string base64).

(** Modelled from the spec: the loop of [encode] over groups of three
    bytes, the last group filled up with padding. *)
Fixpoint encode_bytes (bs : list byte) : list ascii :=
  match bs with
  | [] => []
  | [x] =>
      let x := byte_to_Z x in
      [char_of_sextet (x / 4); char_of_sextet ((x mod 4) * 16); pad; pad]
  | [x; y] =>
      let x := byte_to_Z x in
      let y := byte_to_Z y in
      [char_of_sextet (x / 4); char_of_sextet ((x mod 4) * 16 + y / 16);
       char_of_sextet ((y mod 16) * 4); pad]
  | x :: y :: z :: rest =>
      let x := byte_to_Z x in
      let y := byte_to_Z y in
      let z := byte_to_Z z in
      char_of_sextet (x / 4) :: char_of_sextet ((x mod 4) * 16 + y / 16)
        :: char_of_sextet ((y mod 16) * 4 + z / 64) :: char_of_sextet (z mod 64)
        :: encode_bytes rest
  end.

(** Modelled from the spec: [encode], the standard base64 encoder that the
    round-trip property of section 8 names; the repository has no such
    function. *)
Definition encode (bs : list byte) : string :=
  string_of_list_ascii (encode_bytes bs).

(** *** What the spec calls a malformed input *)

(** A character that is neither in the alphabet nor the padding
    character. *)
Definition outside_alphabet (cs : list ascii) : bool :=
  existsb (fun c => negb (in_alphabet c || is_pad c)) cs.

(** Padding sits at the very end only: the first ['='] is followed by at
    most one more character, itself ['=']. *)
Fixpoint pads_only_at_end (cs : list ascii) : bool :=
  match cs with
  | [] => true
  | c :: rest =>
      if is_pad c then (length rest <=? 1)%nat && forallb is_pad rest
      else pads_only_at_end rest
  end.

(** Valid padding: the text comes in groups of four and ['='] only fills
    up the last group. *)
Definition valid_padding (cs : list ascii) : bool :=
  (length cs mod 4 =? 0)%nat && pads_only_at_end cs.

Definition malformed (base64 : string) : bool :=
  let cs := list_ascii_of_string base64 in
  outside_alphabet cs || negb (valid_padding cs).

(** *** The bit streams on both sides of the decoder *)

(** The [w] low bits of [v], most significant first. *)
Definition bits (w : nat) (v : Z) : list bool :=
  map (fun i => Z.testbit v (Z.of_nat i)) (rev (seq 0 w)).

(** Six bits per alphabet character, none for padding. *)
Definition text_bits (cs : list ascii) : list bool :=
  flat_map (fun c => match alphabet_index c with
                     | Some i => bits 6 (Z.of_nat i)
                     | None => []
                     end) cs.

Definition byte_bits (bs : list byte) : list bool :=
  flat_map (fun b => bits 8 (byte_to_Z b)) bs.

(** *** 16-bit PCM *)

(** A JavaScript number is an IEEE 754 binary64 value. *)
Definition prec : Z := 53.
Definition emax : Z := 1024.

Definition number_of_Z (z : Z) : spec_float := binary_normalize prec emax z 0 false.

Definition number_div (x y : spec_float) : spec_float := SFdiv prec emax x y.

(** The rational a finite number stands for. *)
Definition SF2Q (f : spec_float) : Q :=
  match f with
  | S754_finite s m e => inject_Z (cond_Zopp s (Z.pos m)) * Qpower 2 e
  | _ => 0%Q
  end.

Definition is_finite (f : spec_float) : bool :=
  match f with
  | S754_zero _ | S754_finite _ _ _ => true
  | _ => false
  end.

(** Modelled from the spec: the sample reconstruction of [decodeAudioData]
    (section 4.2): low byte + high byte << 8, sign-extended from the 16-bit
    two's-complement range. *)
Definition int16_of_bytes (lo hi : byte) : Z :=
  let u := byte_to_Z lo + Z.shiftl (byte_to_Z hi) 8 in
  if 32768 <=? u then u - 65536 else u.

(** Modelled from the spec: the buffer of [decodeAudioData] seen as 16-bit
    samples: consecutive pairs, a trailing single byte left out. *)
Fixpoint int16_view (data : list byte) : list Z :=
  match data with
  | lo :: hi :: rest => int16_of_bytes lo hi :: int16_view rest
  | _ => []
  end.

(** Modelled from the spec: the normalization of [decodeAudioData],
    division by 32768.0. *)
Definition normalize (v : Z) : spec_float :=
  number_div (number_of_Z v) (number_of_Z 32768).

(** Modelled from the spec: one sample of [decodeAudioData].  Reading past
    the end of a typed array gives [undefined], and [undefined / 32768.0]
    is NaN. *)
Definition sample_at (dataInt16 : list Z) (k : nat) : spec_float :=
  match dataInt16 !! k with
  | Some v => normalize v
  | None => S754_nan
  end.

(** Modelled from the spec: the AudioBuffer of section 3, with its sample
    rate, channel count, frame count and one sample list per channel. *)
Record AudioBuffer : Type := {
  sampleRate : Z;
  numberOfChannels : nat;
  frameCount : nat;
  channelData : list (list spec_float)
}.

(** Modelled from the spec: [decodeAudioData] of [utils/audioUtils]
    (section 4.2), called in [App.tsx] as
    [decodeAudioData(decoded, audioContextRef.current, 24000, 1)].  The
    frame count is the truncating quotient of the byte length by
    [2 * numChannels]; channel [c] of frame [i] is sample [i * numChannels + c]
    of the interleaved input. *)
Definition decodeAudioData {Ctx : Type} (data : list byte) (ctx : Ctx)
    (rate : Z) (numChannels : nat) : AudioBuffer :=
  let dataInt16 := int16_view data in
  let frames := (length data / (2 * numChannels))%nat in
  {| sampleRate := rate;
     numberOfChannels := numChannels;
     frameCount := frames;
     channelData :=
       map (fun channel =>
              map (fun i => sample_at dataInt16 (i * numChannels + channel))
                  (seq 0 frames))
           (seq 0 numChannels) |}.

End AudioUtils.

(** ** types.ts *)

Inductive Role : Type := user | model.

Record ChatMessage : Type := {
  role : Role;
  content : string
}.

Record LoadingState : Type := {
  script : bool;
  image : bool;
  audio : bool
}.

(** ** JavaScript strings *)

(** Truthiness of a string: every string but the empty one. *)
Definition truthy (s : string) : bool :=
  match s with
  | EmptyString => false
  | String _ _ => true
  end.

(** A string is held as the bytes of its UTF-8 encoding, so a white-space
    character of ECMAScript (WhiteSpace and LineTerminator) is one, two or
    three bytes long.  One byte: TAB, LF, VT, FF, CR and SPACE. *)
Definition is_space (c : ascii) : bool :=
  match N_of_ascii c with
  | 9 | 10 | 11 | 12 | 13 | 32 => true
  | _ => false
  end%N.

(** Two bytes: U+00A0, encoded 0xC2 0xA0. *)
Definition is_space2 (a b : ascii) : bool :=
  ((N_of_ascii a =? 194) && (N_of_ascii b =? 160))%N.

(** Three bytes: U+1680 (0xE1 0x9A 0x80); U+2000 to U+200A, U+2028,
    U+2029 and U+202F (0xE2 0x80, then 0x80 to 0x8A, 0xA8, 0xA9, 0xAF);
    U+205F (0xE2 0x81 0x9F); U+3000 (0xE3 0x80 0x80); U+FEFF
    (0xEF 0xBB 0xBF). *)
Definition is_space3 (a b c : ascii) : bool :=
  let a := N_of_ascii a in
  let b := N_of_ascii b in
  let c := N_of_ascii c in
  ((a =? 225) && (b =? 154) && (c =? 128)
   || (a =? 226) && (b =? 128)
      && ((128 <=? c) && (c <=? 138) || (c =? 168) || (c =? 169) || (c =? 175))
   || (a =? 226) && (b =? 129) && (c =? 159)
   || (a =? 227) && (b =? 128) && (c =? 128)
   || (a =? 239) && (b =? 187) && (c =? 191))%N.

(** Drop the white space a text starts with. *)
Fixpoint trim_start (cs : list ascii) : list ascii :=
  match cs with
  | [] => []
  | c1 :: r1 =>
      if is_space c1 then trim_start r1
      else match r1 with
           | [] => cs
           | c2 :: r2 =>
               if is_space2 c1 c2 then trim_start r2
               else match r2 with
                    | [] => cs
                    | c3 :: r3 =>
                        if is_space3 c1 c2 c3 then trim_start r3 else cs
                    end
           end
  end.

(** The same from the other end, on the reversed text: the last byte of a
    character comes first. *)
Fixpoint trim_end (rs : list ascii) : list ascii :=
  match rs with
  | [] => []
  | c1 :: r1 =>
      if is_space c1 then trim_end r1
      else match r1 with
           | [] => rs
           | c2 :: r2 =>
               if is_space2 c2 c1 then trim_end r2
               else match r2 with
                    | [] => rs
                    | c3 :: r3 =>
                        if is_space3 c3 c2 c1 then trim_end r3 else rs
                    end
           end
  end.

(** [String.prototype.trim]. *)
Definition trim (s : string) : string :=
  string_of_list_ascii
    (rev (trim_end (rev (trim_start (list_ascii_of_string s))))).

(** ** services/geminiService *)

Module GeminiService.

(** Each function takes [ai], whether the module-level client was
    constructed, and the way the provider call settles; a rejected call is
    caught inside the function and turned into [null]. *)

Definition generateImagePrompt (ai : bool) (response : result string)
    : option string :=
  if negb ai then None
  else match response with
       | Ok text => Some (trim text)
       | Err _ => None
       end.

(** [response] lists the [imageBytes] of the generated images. *)
Definition generateMeditationImage (ai : bool) (response : result (list string))
    : option string :=
  if negb ai then None
  else match response with
       | Ok (imageBytes :: _) => Some imageBytes
       | Ok [] => None
       | Err _ => None
       end.

(** [response] is the [inlineData.data] of the first part, when there is
    one; [base64Audio || null] maps the empty string to [null] too. *)
Definition generateMeditationAudio (ai : bool) (response : result (option string))
    : option string :=
  if negb ai then None
  else match response with
       | Ok (Some base64Audio) =>
           if truthy base64Audio then Some base64Audio else None
       | Ok None => None
       | Err _ => None
       end.

End GeminiService.

(** ** components/ChatBubble.tsx *)

Module Components.

(** What a bubble puts on the screen: the class lists of its two [div]s and
    the text of its paragraph. *)
Record Bubble : Type := {
  containerClassName : string;
  bubbleClassName : string;
  text : string
}.

Definition ChatBubble (message : ChatMessage) : Bubble :=
  let isUser := match role message with
                | user => true
                | model => false
                end in
  let bubbleClasses :=
    if isUser then "bg-indigo-600 text-white self-end"
    else "bg-gray-700 text-gray-200 self-start" in
  let containerClasses :=
    if isUser then "flex justify-end" else "flex justify-start" in
  {| containerClassName := containerClasses;
     bubbleClassName :=
       "max-w-md lg:max-w-lg px-4 py-3 rounded-2xl shadow " +:+ bubbleClasses;
     text := content message |}.

End Components.

(** ** App.tsx *)

Module App.

Import AudioUtils GeminiService.

(** *** The objects the component holds *)

Inductive Chat : Type := GeminiChat.

Record AudioContext : Type := {
  contextId : nat;
  contextSampleRate : Z
}.

(** A source node emits audio while it is [Playing]; [stop()] makes it
    [Stopped]; once its [ended] event has been dispatched it is
    [Finished]. *)
Inductive SourceStatus : Type := Playing | Stopped | Finished.

Record AudioBufferSourceNode : Type := {
  buffer : AudioBuffer;
  status : SourceStatus
}.

(** The calls the component makes on its collaborators. *)
Inductive Call : Type :=
| NewAudioContext (rate : Z)
| SendMessage (message : string)
| GenerateImagePrompt (scriptText : string)
| GenerateMeditationAudio (scriptText : string)
| GenerateMeditationImage (prompt : string)
| SourceStart (node : nat)
| SourceStop (node : nat).

(** Where a running [handleSendMessage] is suspended. *)
Inductive Await : Type :=
| AwaitScript
| AwaitImagePrompt
| AwaitImage
| AwaitAudio
| AwaitDecode (decoded : AudioBuffer).

(** The [useState] values. *)
Record Component : Type := {
  chat : option Chat;
  messages : list ChatMessage;
  userInput : string;
  loading : LoadingState;
  imageUrl : string;
  audioBuffer : option AudioBuffer;
  isPlaying : bool
}.

(** The component together with its refs and with the browser around it:
    the source nodes ever created (a ref holds the index of one), the
    number of audio contexts constructed, the calls made so far, the
    suspended runs of [handleSendMessage], and the client of
    [geminiService]. *)
Record World : Type := {
  ui : Component;
  audioContextRef : option AudioContext;
  audioSourceRef : option nat;
  sources : list AudioBufferSourceNode;
  contextsCreated : nat;
  calls : list Call;
  inflight : list Await;
  ai : bool
}.

(** *** State setters *)

Definition setUi (f : Component -> Component) (w : World) : World :=
  {| ui := f (ui w); audioContextRef := audioContextRef w;
     audioSourceRef := audioSourceRef w; sources := sources w;
     contextsCreated := contextsCreated w; calls := calls w;
     inflight := inflight w; ai := ai w |}.

Definition setChat (v : option Chat) : World -> World :=
  setUi (fun c =>
    {| chat := v; messages := messages c; userInput := userInput c;
       loading := loading c; imageUrl := imageUrl c;
       audioBuffer := audioBuffer c; isPlaying := isPlaying c |}).

Definition setMessages (f : list ChatMessage -> list ChatMessage) : World -> World :=
  setUi (fun c =>
    {| chat := chat c; messages := f (messages c); userInput := userInput c;
       loading := loading c; imageUrl := imageUrl c;
       audioBuffer := audioBuffer c; isPlaying := isPlaying c |}).

Definition setUserInput (v : string) : World -> World :=
  setUi (fun c =>
    {| chat := chat c; messages := messages c; userInput := v;
       loading := loading c; imageUrl := imageUrl c;
       audioBuffer := audioBuffer c; isPlaying := isPlaying c |}).

Definition setLoading (f : LoadingState -> LoadingState) : World -> World :=
  setUi (fun c =>
    {| chat := chat c; messages := messages c; userInput := userInput c;
       loading := f (loading c); imageUrl := imageUrl c;
       audioBuffer := audioBuffer c; isPlaying := isPlaying c |}).

Definition setImageUrl (v : string) : World -> World :=
  setUi (fun c =>
    {| chat := chat c; messages := messages c; userInput := userInput c;
       loading := loading c; imageUrl := v;
       audioBuffer := audioBuffer c; isPlaying := isPlaying c |}).

Definition setAudioBuffer (v : option AudioBuffer) : World -> World :=
  setUi (fun c =>
    {| chat := chat c; messages := messages c; userInput := userInput c;
       loading := loading c; imageUrl := imageUrl c;
       audioBuffer := v; isPlaying := isPlaying c |}).

Definition setIsPlaying (v : bool) : World -> World :=
  setUi (fun c =>
    {| chat := chat c; messages := messages c; userInput := userInput c;
       loading := loading c; imageUrl := imageUrl c;
       audioBuffer := audioBuffer c; isPlaying := v |}).

Definition setAudioContextRef (v : option AudioContext) (w : World) : World :=
  {| ui := ui w; audioContextRef := v;
     audioSourceRef := audioSourceRef w; sources := sources w;
     contextsCreated := contextsCreated w; calls := calls w;
     inflight := inflight w; ai := ai w |}.

Definition setAudioSourceRef (v : option nat) (w : World) : World :=
  {| ui := ui w; audioContextRef := audioContextRef w;
     audioSourceRef := v; sources := sources w;
     contextsCreated := contextsCreated w; calls := calls w;
     inflight := inflight w; ai := ai w |}.

Definition setSources (f : list AudioBufferSourceNode -> list AudioBufferSourceNode)
    (w : World) : World :=
  {| ui := ui w; audioContextRef := audioContextRef w;
     audioSourceRef := audioSourceRef w; sources := f (sources w);
     contextsCreated := contextsCreated w; calls := calls w;
     inflight := inflight w; ai := ai w |}.

Definition setContextsCreated (n : nat) (w : World) : World :=
  {| ui := ui w; audioContextRef := audioContextRef w;
     audioSourceRef := audioSourceRef w; sources := sources w;
     contextsCreated := n; calls := calls w;
     inflight := inflight w; ai := ai w |}.

(** Record one call on a collaborator. *)
Definition call (c : Call) (w : World) : World :=
  {| ui := ui w; audioContextRef := audioContextRef w;
     audioSourceRef := audioSourceRef w; sources := sources w;
     contextsCreated := contextsCreated w; calls := calls w ++ [c];
     inflight := inflight w; ai := ai w |}.

Definition setInflight (f : list Await -> list Await) (w : World) : World :=
  {| ui := ui w; audioContextRef := audioContextRef w;
     audioSourceRef := audioSourceRef w; sources := sources w;
     contextsCreated := contextsCreated w; calls := calls w;
     inflight := f (inflight w); ai := ai w |}.

(** *** Mounting: the initialization effect *)

(** What the platform does to the three constructions of the effect:
    [new GoogleGenAI(...)], [ai.chats.create(...)] and
    [new AudioContext({ sampleRate: 24000 })] each return or throw. *)
Record Platform : Type := {
  genAIConstructs : bool;
  chatCreates : bool;
  audioContextConstructs : bool
}.

Definition quote : string := String (ascii_of_nat 34) EmptyString.

Definition welcome : ChatMessage :=
  {| role := model;
     content :=
       "Welcome to Serene AI. How can I help you find your calm today? You can ask for a meditation on a topic like "
       +:+ quote +:+ "stress relief" +:+ quote +:+ " or " +:+ quote
       +:+ "finding focus" +:+ quote +:+ "." |}.

Definition idle : LoadingState :=
  {| script := false; image := false; audio := false |}.

(** The state before the first effect runs; [geminiService] has tried to
    construct its own client on import. *)
Definition initial (p : Platform) : World :=
  {| ui := {| chat := None; messages := []; userInput := "";
              loading := idle; imageUrl := ""; audioBuffer := None;
              isPlaying := false |};
     audioContextRef := None; audioSourceRef := None; sources := [];
     contextsCreated := 0; calls := []; inflight := [];
     ai := genAIConstructs p |}.

(** The [try] block stops at the first construction that throws; the
    welcome message is set after it in every case. *)
Definition mount (p : Platform) : World :=
  let w := initial p in
  let w :=
    if genAIConstructs p then
      if chatCreates p then
        let w := setChat (Some GeminiChat) w in
        let w := call (NewAudioContext 24000) w in
        if audioContextConstructs p then
          let ctx := {| contextId := contextsCreated w;
                        contextSampleRate := 24000 |} in
          setAudioContextRef (Some ctx)
            (setContextsCreated (S (contextsCreated w)) w)
        else w
      else w
    else w in
  setMessages (fun _ => [welcome]) w.

(** *** handleSendMessage *)

Definition isNull {A} (o : option A) : bool :=
  match o with
  | None => true
  | Some _ => false
  end.

(** [Object.values(loading).some(v => v)]. *)
Definition isGenerating (l : LoadingState) : bool :=
  script l || image l || audio l.

Definition errorMessage : ChatMessage :=
  {| role := model;
     content := "Sorry, I encountered an error. Please try again." |}.

(** Up to the first [await]. *)
Definition handleSendMessage (w : World) : World :=
  let input := userInput (ui w) in
  if negb (truthy (trim input)) || isNull (chat (ui w))
     || isGenerating (loading (ui w))
  then w
  else
    let userMessage := {| role := user; content := input |} in
    let w := setMessages (fun prev => prev ++ [userMessage]) w in
    let w := setUserInput "" w in
    let w := setLoading (fun _ => {| script := true; image := true; audio := true |}) w in
    let w := setAudioBuffer None w in
    let w := setIsPlaying false w in
    let w := call (SendMessage input) w in
    setInflight (fun runs => runs ++ [AwaitScript]) w.

(** The [catch] block ends run [k]. *)
Definition catchBlock (k : nat) (w : World) : World :=
  let w := setMessages (fun prev => prev ++ [errorMessage]) w in
  let w := setLoading (fun _ => idle) w in
  setInflight (delete k) w.

(** [chat.sendMessage] settled. *)
Definition afterScript (k : nat) (response : result string) (w : World) : World :=
  match response with
  | Err _ => catchBlock k w
  | Ok scriptText =>
      let modelMessage := {| role := model; content := scriptText |} in
      let w := setMessages (fun prev => prev ++ [modelMessage]) w in
      let w := setLoading (fun prev => {| script := false; image := image prev;
                                          audio := audio prev |}) w in
      let w := call (GenerateImagePrompt scriptText) w in
      let w := call (GenerateMeditationAudio scriptText) w in
      setInflight (<[k := AwaitImagePrompt]>) w
  end.

(** [setLoading(prev => ({ ...prev, image: false }))], then on to
    [await audioPromise]. *)
Definition imageDone (k : nat) (w : World) : World :=
  let w := setLoading (fun prev => {| script := script prev; image := false;
                                      audio := audio prev |}) w in
  setInflight (<[k := AwaitAudio]>) w.

(** [imagePromptPromise] settled. *)
Definition afterImagePrompt (k : nat) (response : result string) (w : World) : World :=
  match generateImagePrompt (ai w) response with
  | Some imagePrompt =>
      if truthy imagePrompt then
        let w := call (GenerateMeditationImage imagePrompt) w in
        setInflight (<[k := AwaitImage]>) w
      else imageDone k w
  | None => imageDone k w
  end.

(** [generateMeditationImage(imagePrompt)] settled. *)
Definition afterImage (k : nat) (response : result (list string)) (w : World) : World :=
  let w :=
    match generateMeditationImage (ai w) response with
    | Some imageData =>
        if truthy imageData
        then setImageUrl ("data:image/jpeg;base64," +:+ imageData) w
        else w
    | None => w
    end in
  imageDone k w.

(** [setLoading(prev => ({ ...prev, audio: false }))] ends run [k]. *)
Definition audioDone (k : nat) (w : World) : World :=
  let w := setLoading (fun prev => {| script := script prev; image := image prev;
                                      audio := false |}) w in
  setInflight (delete k) w.

(** [audioPromise] settled. *)
Definition afterAudio (k : nat) (response : result (option string)) (w : World) : World :=
  match generateMeditationAudio (ai w) response, audioContextRef w with
  | Some audioData, Some ctx =>
      if truthy audioData then
        match decode audioData with
        | Err _ => catchBlock k w
        | Ok decoded =>
            setInflight (<[k := AwaitDecode (decodeAudioData decoded ctx 24000 1)]>) w
        end
      else audioDone k w
  | _, _ => audioDone k w
  end.

(** [decodeAudioData(...)] settled. *)
Definition afterDecode (k : nat) (decoded : AudioBuffer) (w : World) : World :=
  audioDone k (setAudioBuffer (Some decoded) w).

(** *** handlePlayPause *)

Definition halt (n : AudioBufferSourceNode) : AudioBufferSourceNode :=
  match status n with
  | Playing => {| buffer := buffer n; status := Stopped |}
  | _ => n
  end.

(** [source.stop()]. *)
Definition stop (node : nat) (w : World) : World :=
  setSources (alter halt node) (call (SourceStop node) w).

(** [createBufferSource()], [source.buffer = ...], [connect], [start()]:
    a new node, emitting at once. *)
Definition start (b : AudioBuffer) (w : World) : World :=
  let node := length (sources w) in
  setSources (fun l => l ++ [{| buffer := b; status := Playing |}])
    (call (SourceStart node) w).

Definition handlePlayPause (w : World) : World :=
  match audioContextRef w, audioBuffer (ui w) with
  | Some ctx, Some b =>
      if isPlaying (ui w) then
        let w := match audioSourceRef w with
                 | Some node => stop node w
                 | None => w
                 end in
        setIsPlaying false w
      else
        let node := length (sources w) in
        let w := start b w in
        let w := setAudioSourceRef (Some node) w in
        setIsPlaying true w
  | _, _ => w
  end.

(** [source.onended = () => setIsPlaying(false)], dispatched once per node,
    after it ran to its end or was stopped. *)
Definition onended (node : nat) (w : World) : World :=
  match sources w !! node with
  | Some n =>
      match status n with
      | Finished => w
      | _ =>
          let w := setSources (<[node := {| buffer := buffer n; status := Finished |}]>) w in
          setIsPlaying false w
      end
  | None => w
  end.

(** *** The event loop *)

Inductive Event : Type :=
| Change (value : string)
| Send
| PlayPause
| Ended (node : nat)
| ScriptSettled (k : nat) (response : result string)
| ImagePromptSettled (k : nat) (response : result string)
| ImageSettled (k : nat) (response : result (list string))
| AudioSettled (k : nat) (response : result (option string))
| DecodeSettled (k : nat).

(** A settled promise resumes run [k] only where that run awaits it. *)
Definition step (w : World) (e : Event) : World :=
  match e with
  | Change value => setUserInput value w
  | Send => handleSendMessage w
  | PlayPause => handlePlayPause w
  | Ended node => onended node w
  | ScriptSettled k response =>
      match inflight w !! k with
      | Some AwaitScript => afterScript k response w
      | _ => w
      end
  | ImagePromptSettled k response =>
      match inflight w !! k with
      | Some AwaitImagePrompt => afterImagePrompt k response w
      | _ => w
      end
  | ImageSettled k response =>
      match inflight w !! k with
      | Some AwaitImage => afterImage k response w
      | _ => w
      end
  | AudioSettled k response =>
      match inflight w !! k with
      | Some AwaitAudio => afterAudio k response w
      | _ => w
      end
  | DecodeSettled k =>
      match inflight w !! k with
      | Some (AwaitDecode decoded) => afterDecode k decoded w
      | _ => w
      end
  end.

Definition run (w : World) (events : list Event) : World :=
  fold_left step events w.

(** *** Observations *)

Definition emits (n : AudioBufferSourceNode) : bool :=
  match status n with
  | Playing => true
  | _ => false
  end.

(** The source nodes emitting audio. *)
Definition emitting (w : World) : list AudioBufferSourceNode :=
  List.filter emits (sources w).

(** The calls made by a handler that took [w] to [w']. *)
Definition callsSince (w w' : World) : list Call :=
  drop (length (calls w)) (calls w').

Definition isPlayCall (c : Call) : bool :=
  match c with SourceStart _ => true | _ => false end.

Definition isStopCall (c : Call) : bool :=
  match c with SourceStop _ => true | _ => false end.

(** The loading flags a run has left set while it is suspended. *)
Definition flagsAt (a : Await) : LoadingState :=
  match a with
  | AwaitScript => {| script := true; image := true; audio := true |}
  | AwaitImagePrompt | AwaitImage => {| script := false; image := true; audio := true |}
  | AwaitAudio | AwaitDecode _ => {| script := false; image := false; audio := true |}
  end.

(** What holds of every state the event loop reaches: at most one run of
    [handleSendMessage] is suspended and the loading flags tell where; a
    decoded buffer exists only if the audio context does; the playing flag
    is set only once a source node has been stored in the ref. *)
Definition invariant (w : World) : Prop :=
  (inflight w = [] /\ loading (ui w) = idle \/
   exists a, inflight w = [a] /\ loading (ui w) = flagsAt a /\
             (forall decoded, a = AwaitDecode decoded -> audioContextRef w <> None)) /\
  (audioBuffer (ui w) <> None -> audioContextRef w <> None) /\
  (isPlaying (ui w) = true -> audioSourceRef w <> None).

(** The controller's view agrees with the nodes: whatever emits is the
    node the ref holds, and the flag says so. *)
Definition consistent (w : World) : Prop :=
  forall node n, sources w !! node = Some n -> status n = Playing ->
    isPlaying (ui w) = true /\ audioSourceRef w = Some node.

(** The bubbles come from [components/ChatBubble]. *)
Import Components.

(** *** Rendering *)

(** The panel beside the chat: the spinner while the image is loading, the
    latest image once there is one, a placeholder before that. *)
Inductive Visual : Type :=
| Generating
| Picture (src : string)
| Placeholder.

Inductive Icon : Type := PauseIcon | PlayIcon.

(** The parts of the returned element that depend on the state. *)
Record Screen : Type := {
  bubbles : list Bubble;
  spinner : bool;
  inputValue : string;
  inputDisabled : bool;
  sendDisabled : bool;
  playControl : option Icon;
  visual : Visual
}.

Definition render (c : Component) : Screen :=
  let generating := isGenerating (loading c) in
  {| bubbles := map ChatBubble (messages c);
     spinner := generating;
     inputValue := userInput c;
     inputDisabled := generating;
     sendDisabled := generating || negb (truthy (trim (userInput c)));
     playControl :=
       match audioBuffer c with
       | Some _ => Some (if isPlaying c then PauseIcon else PlayIcon)
       | None => None
       end;
     visual :=
       if image (loading c) then Generating
       else if truthy (imageUrl c) then Picture (imageUrl c)
       else Placeholder |}.

(** *** What the user does to the rendered element *)

Inductive Dom : Type :=
| TypeText (value : string)
| KeyDown (key : string)
| ClickSend
| ClickPlay.

(** A disabled control takes no input, and a control that is not rendered
    cannot be clicked; [onKeyDown] tests the key and the loading flags
    itself. *)
Definition dispatch (w : World) (d : Dom) : World :=
  let screen := render (ui w) in
  match d with
  | TypeText value =>
      if inputDisabled screen then w else setUserInput value w
  | KeyDown key =>
      if inputDisabled screen then w
      else if String.eqb key "Enter" && negb (isGenerating (loading (ui w)))
           then handleSendMessage w
           else w
  | ClickSend =>
      if sendDisabled screen then w else handleSendMessage w
  | ClickPlay =>
      match playControl screen with
      | Some _ => handlePlayPause w
      | None => w
      end
  end.

End App.

Import AudioUtils GeminiService App.
Import Components.

(** ** Statements about the component, as predicates *)

Definition isContextCall (c : Call) : bool :=
  match c with
  | NewAudioContext _ => true
  | _ => false
  end.

(** The constructor calls for an audio context made so far. *)
Definition constructions (w : World) : list Call :=
  List.filter isContextCall (calls w).

(** "The audio context is created exactly once", after mounting on [p] and
    running [events]. *)
Definition createdExactlyOnce (p : Platform) (events : list Event) : Prop :=
  contextsCreated (run (mount p) events) = 1%nat.

(** The events that reach the source nodes: the play/pause button and a
    node's [ended] event. *)
Definition touchesAudio (e : Event) : bool :=
  match e with
  | PlayPause | Ended _ => true
  | _ => false
  end.

(** "[handlePlayPause] performs exactly one of play or stop" at [w]. *)
Definition togglesExactlyOne (w : World) : Prop :=
  length (List.filter (fun c => isPlayCall c || isStopCall c)
            (callsSince w (handlePlayPause w))) = 1%nat.

(** "Exactly one generic model message is appended" between [w] and
    [w']. *)
Definition reportsFailure (w w' : World) : Prop :=
  messages (ui w') = messages (ui w) ++ [errorMessage].

(** ** Platforms and runs used as examples *)

(** A browser in which every construction succeeds, and one in which the
    API key is missing, so that [new GoogleGenAI(...)] throws. *)
Definition browser : Platform :=
  {| genAIConstructs := true; chatCreates := true; audioContextConstructs := true |}.

Definition noApiKey : Platform :=
  {| genAIConstructs := false; chatCreates := true; audioContextConstructs := true |}.

Definition scriptOnly : list Event :=
  [Change "stress relief"; Send; ScriptSettled 0 (Ok "Breathe in.")].

(** A whole generation cycle; the audio is the two samples -32768 and
    32767. *)
Definition fullCycle : list Event :=
  scriptOnly ++ [ImagePromptSettled 0 (Ok "a calm lake at dawn");
                 ImageSettled 0 (Ok ["/9j/"]);
                 AudioSettled 0 (Ok (Some "AID/fw=="));
                 DecodeSettled 0].

(** The same cycle with the image-prompt call rejected by the provider. *)
Definition imagePromptFails : list Event :=
  scriptOnly ++ [ImagePromptSettled 0 (Err ProviderCallError);
                 AudioSettled 0 (Ok (Some "AID/fw=="));
                 DecodeSettled 0].

(** Playback is started, then a new request is sent and answered, and play
    is pressed again. *)
Definition resend : list Event :=
  fullCycle ++ [PlayPause; Change "sleep"; Send;
                ScriptSettled 0 (Ok "Rest."); ImagePromptSettled 0 (Ok "night sky");
                ImageSettled 0 (Ok ["/9j/"]);
                AudioSettled 0 (Ok (Some "AID/fw=="));
                DecodeSettled 0; PlayPause].

(** The same up to the second press: the second request has been answered
    and the play control is on the screen again. *)
Definition answered : list Event :=
  fullCycle ++ [PlayPause; Change "sleep"; Send;
                ScriptSettled 0 (Ok "Rest."); ImagePromptSettled 0 (Ok "night sky");
                ImageSettled 0 (Ok ["/9j/"]);
                AudioSettled 0 (Ok (Some "AID/fw=="));
                DecodeSettled 0].

(** U+3000 IDEOGRAPHIC SPACE and U+00A0 NO-BREAK SPACE, in UTF-8. *)
Definition ideographicSpace : string :=
  string_of_list_ascii (map ascii_of_N [227; 128; 128]%N).

Definition noBreakSpace : string :=
  string_of_list_ascii (map ascii_of_N [194; 160]%N).

(** ** Tests the proofs run over finite domains *)

(** Every 16-bit value divided by 32768.0 is a finite number, and the
    division is exact.  Checked on all 65536 values, split as
    [256 * h + l - 32768]. *)
Definition normalize_exact_at (v : Z) : bool :=
  is_finite (normalize v) && Qeq_bool (SF2Q (normalize v)) (v # 32768).

(** The decoder's range arithmetic and the alphabet string agree on every
    character, and the padding character is outside the alphabet. *)
Definition table_agrees (c : ascii) : bool :=
  match sextet_of_char c, alphabet_index c with
  | Ok n, Some i => (n =? Z.of_nat i) && (0 <=? n) && (n <? 64) && negb (is_pad c)
  | Err MalformedEncodingError, None => true
  | _, _ => false
  end.

(** The three kinds of characters. *)
Inductive char_kind (c : ascii) : Prop :=
| kind_digit (n : Z) :
    0 <= n < 64 -> sextet_of_char c = Ok n ->
    alphabet_index c = Some (Z.to_nat n) ->
    in_alphabet c = true -> is_pad c = false -> char_kind c
| kind_pad :
    sextet_of_char c = Err MalformedEncodingError ->
    alphabet_index c = None ->
    in_alphabet c = false -> is_pad c = true -> char_kind c
| kind_foreign :
    sextet_of_char c = Err MalformedEncodingError ->
    alphabet_index c = None ->
    in_alphabet c = false -> is_pad c = false -> char_kind c.

(** Equality of bit lists, as a test. *)
Fixpoint same_bits (xs ys : list bool) : bool :=
  match xs, ys with
  | [], [] => true
  | x :: xs, y :: ys => Bool.eqb x y && same_bits xs ys
  | _, _ => false
  end.

(** The table gives back the sextet a character was made from, and that
    character is not the padding character. *)
Definition sextet_round_trips (n : Z) : bool :=
  match sextet_of_char (char_of_sextet n) with
  | Ok m => (m =? n) && negb (is_pad (char_of_sextet n))
  | Err _ => false
  end.

(** ** Readings of the transcript and of the call log *)

Definition isUserMessage (m : ChatMessage) : bool :=
  match role m with
  | user => true
  | model => false
  end.

(** The texts shown as user bubbles, in order. *)
Definition userTexts (w : World) : list string :=
  map content (List.filter isUserMessage (messages (ui w))).

(** The texts passed to [chat.sendMessage], in order. *)
Definition sentTexts (w : World) : list string :=
  omap (fun c => match c with SendMessage m => Some m | _ => None end) (calls w).

(** The script texts passed to [generateImagePrompt], to
    [generateMeditationAudio], and the prompts passed to
    [generateMeditationImage]. *)
Definition promptRequests (w : World) : list string :=
  omap (fun c => match c with GenerateImagePrompt t => Some t | _ => None end) (calls w).

Definition audioRequests (w : World) : list string :=
  omap (fun c => match c with GenerateMeditationAudio t => Some t | _ => None end) (calls w).

Definition imageRequests (w : World) : list string :=
  omap (fun c => match c with GenerateMeditationImage t => Some t | _ => None end) (calls w).

(** No source node is emitting. *)
Definition quiet (w : World) : bool :=
  forallb (fun n => negb (emits n)) (sources w).

(** The events after which the playing flag still tells whether a node is
    emitting: every event, except a send while a node is emitting and an
    [ended] event of a node that was stopped while another one is
    emitting. *)
Definition orderly (w : World) (e : Event) : bool :=
  match e with
  | Send => quiet w
  | Ended node =>
      quiet w || match sources w !! node with
                 | Some n => emits n
                 | None => false
                 end
  | _ => true
  end.

Fixpoint orderlyRun (w : World) (events : list Event) : bool :=
  match events with
  | [] => true
  | e :: rest => orderly w e && orderlyRun (step w e) rest
  end.

(** How many promises a suspended run still has to await at most. *)
Definition remaining (a : Await) : nat :=
  match a with
  | AwaitScript => 5
  | AwaitImagePrompt => 4
  | AwaitImage => 3
  | AwaitAudio => 2
  | AwaitDecode _ => 1
  end.

(** The event [e] settles the promise that run 0 awaits at [a]. *)
Definition settles (a : Await) (e : Event) : bool :=
  match a, e with
  | AwaitScript, ScriptSettled 0 _ => true
  | AwaitImagePrompt, ImagePromptSettled 0 _ => true
  | AwaitImage, ImageSettled 0 _ => true
  | AwaitAudio, AudioSettled 0 _ => true
  | AwaitDecode _, DecodeSettled 0 => true
  | _, _ => false
  end.

(** One generation cycle in which every call succeeds. *)
Definition cycle (scriptText prompt imageData audioData : string)
    (moreImages : list string) : list Event :=
  [Send; ScriptSettled 0 (Ok scriptText); ImagePromptSettled 0 (Ok prompt);
   ImageSettled 0 (Ok (imageData :: moreImages));
   AudioSettled 0 (Ok (Some audioData)); DecodeSettled 0].

(** A text made of white-space characters only: it splits into encodings
    of white-space characters. *)
Fixpoint all_space (cs : list ascii) : bool :=
  match cs with
  | [] => true
  | c1 :: r1 =>
      is_space c1 && all_space r1
      || match r1 with
         | [] => false
         | c2 :: r2 =>
             is_space2 c1 c2 && all_space r2
             || match r2 with
                | [] => false
                | c3 :: r3 => is_space3 c1 c2 c3 && all_space r3
                end
         end
  end.

Definition blank (s : string) : bool :=
  all_space (list_ascii_of_string s).

Definition dataUrl (imageData : string) : string :=
  "data:image/jpeg;base64," +:+ imageData.

(** ** Invariants of the further properties *)

(** The state the component is in for good when no chat session could be
    created. *)
Definition inert (w : World) : Prop :=
  chat (ui w) = None /\ messages (ui w) = [welcome] /\ calls w = [] /\
  inflight w = [] /\ loading (ui w) = idle /\ imageUrl (ui w) = "" /\
  audioBuffer (ui w) = None /\ isPlaying (ui w) = false /\
  sources w = [] /\ audioContextRef w = None.

(** The requests made so far, counted against the runs that have still to
    make theirs. *)
Definition accounted (w : World) : Prop :=
  promptRequests w = audioRequests w /\
  (length (promptRequests w)
   + length (List.filter (fun a => match a with AwaitScript => true | _ => false end)
                          (inflight w))
   <= length (sentTexts w))%nat /\
  (length (imageRequests w)
   + length (List.filter (fun a => match a with AwaitImagePrompt => true | _ => false end)
                          (inflight w))
   <= length (promptRequests w))%nat.

(** A buffer made for the context of the component: 24000 Hz, one
    channel. *)
Definition tuned (b : AudioBuffer) : Prop :=
  sampleRate b = 24000 /\ numberOfChannels b = 1%nat.

Definition allTuned (w : World) : Prop :=
  (forall c, audioContextRef w = Some c -> contextSampleRate c = 24000) /\
  (forall b, audioBuffer (ui w) = Some b -> tuned b) /\
  Forall (fun n => tuned (buffer n)) (sources w) /\
  (forall b, inflight w = [AwaitDecode b] -> tuned b) /\
  (sources w <> [] -> audioContextRef w <> None).

(** The flag tells the truth: what emits is the node in the ref, and
    while the flag is up that node emits. *)
Definition truthful (w : World) : Prop :=
  consistent w /\
  (isPlaying (ui w) = true ->
   exists node n, audioSourceRef w = Some node /\
                  sources w !! node = Some n /\ status n = Playing).

(** A browser without Web Audio: [new AudioContext] throws. *)
Definition noAudio : Platform :=
  {| genAIConstructs := true; chatCreates := true; audioContextConstructs := false |}.

(** * Properties of the byte helpers *)

Section Bytes.

Lemma byte_to_Z_range (b : byte) : 0 <= byte_to_Z b < 256.
Proof.
  unfold byte_to_Z. pose proof (Byte.to_N_bounded b). lia.
Qed.

Lemma byte_of_to_Z (b : byte) : byte_of_Z (byte_to_Z b) = b.
Proof.
  unfold byte_of_Z. rewrite Z.mod_small by apply byte_to_Z_range.
  unfold byte_to_Z. rewrite N2Z.id, Byte.of_to_N. reflexivity.
Qed.

Lemma byte_to_of_Z (z : Z) : 0 <= z < 256 -> byte_to_Z (byte_of_Z z) = z.
Proof.
  intros Hz. unfold byte_of_Z. rewrite Z.mod_small by assumption.
  destruct (Byte.of_N (Z.to_N z)) as [b|] eqn:E.
  - apply Byte.to_of_N in E. unfold byte_to_Z. simpl. rewrite E. lia.
  - apply Byte.of_N_None_iff in E. lia.
Qed.

Lemma elem_of_upto (n : nat) (z : Z) : 0 <= z < Z.of_nat n -> In z (upto n).
Proof.
  intros Hz. unfold upto. apply in_map_iff. exists (Z.to_nat z). split.
  - lia.
  - apply in_seq. lia.
Qed.

End Bytes.

(** * Properties of the PCM converter *)

Section Pcm.

(** Lists taken two elements at a time. *)
Lemma pairs_ind {A} (P : list A -> Prop) :
  P [] -> (forall a, P [a]) -> (forall a b l, P l -> P (a :: b :: l)) ->
  forall l, P l.
Proof.
  intros Hnil Hone Hstep l.
  assert (H : P l /\ forall a, P (a :: l)); [| apply H].
  induction l as [|x l [IH1 IH2]]; split; auto.
Qed.

Lemma normalize_exact_all :
  forallb (fun h => forallb (fun l => normalize_exact_at (256 * h + l - 32768))
                            (upto 256)) (upto 256) = true.
Proof. vm_compute. reflexivity. Qed.

Lemma normalize_exact (v : Z) :
  -32768 <= v < 32768 ->
  is_finite (normalize v) = true /\ Qeq (SF2Q (normalize v)) (v # 32768).
Proof.
  intros Hv.
  pose proof normalize_exact_all as Hall.
  rewrite forallb_forall in Hall.
  specialize (Hall ((v + 32768) / 256)).
  rewrite forallb_forall in Hall.
  specialize (Hall ltac:(apply elem_of_upto; simpl; Z.div_mod_to_equations; lia)
                   ((v + 32768) mod 256)
                   ltac:(apply elem_of_upto; simpl; Z.div_mod_to_equations; lia)).
  replace (256 * ((v + 32768) / 256) + (v + 32768) mod 256 - 32768) with v in Hall
    by (Z.div_mod_to_equations; lia).
  unfold normalize_exact_at in Hall. apply andb_true_iff in Hall as [Hfin Heq].
  split; [assumption | now apply Qeq_bool_iff].
Qed.

Lemma int16_of_bytes_range (lo hi : byte) : -32768 <= int16_of_bytes lo hi < 32768.
Proof.
  unfold int16_of_bytes. rewrite Z.shiftl_mul_pow2 by lia.
  pose proof (byte_to_Z_range lo). pose proof (byte_to_Z_range hi).
  change (2 ^ 8) with 256. cbv zeta.
  destruct (Z.leb_spec 32768 (byte_to_Z lo + byte_to_Z hi * 256)); lia.
Qed.

(** Two's complement: the value agrees with the unsigned pair modulo
    2^16. *)
Lemma int16_of_bytes_mod (lo hi : byte) :
  int16_of_bytes lo hi mod 65536 = byte_to_Z lo + 256 * byte_to_Z hi.
Proof.
  unfold int16_of_bytes. rewrite Z.shiftl_mul_pow2 by lia.
  pose proof (byte_to_Z_range lo). pose proof (byte_to_Z_range hi).
  change (2 ^ 8) with 256. cbv zeta.
  destruct (Z.leb_spec 32768 (byte_to_Z lo + byte_to_Z hi * 256));
    Z.div_mod_to_equations; lia.
Qed.

Lemma int16_view_length (data : list byte) :
  length (int16_view data) = (length data / 2)%nat.
Proof.
  induction data as [| a | a b l IH] using pairs_ind; try reflexivity.
  cbn [int16_view length]. rewrite IH.
  change (S (S (length l))) with (1 * 2 + length l)%nat.
  rewrite Nat.div_add_l by lia. reflexivity.
Qed.

Lemma int16_view_lookup (data : list byte) (k : nat) :
  (k < length data / 2)%nat ->
  exists lo hi, data !! (2 * k)%nat = Some lo /\ data !! (2 * k + 1)%nat = Some hi /\
                int16_view data !! k = Some (int16_of_bytes lo hi).
Proof.
  revert k. induction data as [| a | a b l IH] using pairs_ind; intros k Hk.
  - simpl in Hk. lia.
  - simpl in Hk. lia.
  - destruct k as [|k].
    + exists a, b. repeat split.
    + cbn [length] in Hk.
      change (S (S (length l))) with (1 * 2 + length l)%nat in Hk.
      rewrite Nat.div_add_l in Hk by lia.
      destruct (IH k ltac:(lia)) as (lo & hi & Hlo & Hhi & Hv).
      exists lo, hi.
      replace (2 * S k)%nat with (S (S (2 * k))) by lia.
      replace (S (S (2 * k)) + 1)%nat with (S (S (2 * k + 1))) by lia.
      repeat split; assumption.
Qed.

(** A frame index below the frame count only reads complete pairs. *)
Lemma frame_index_in_range (len numChannels channel i : nat) :
  (channel < numChannels)%nat -> (i < len / (2 * numChannels))%nat ->
  (i * numChannels + channel < len / 2)%nat.
Proof.
  intros Hc Hi.
  rewrite <- Nat.Div0.div_div in Hi.
  pose proof (Nat.Div0.mul_div_le (len / 2) numChannels).
  nia.
Qed.

Lemma channelData_lookup {Ctx} (data : list byte) (ctx : Ctx) (rate : Z)
    (numChannels channel i : nat) :
  (channel < numChannels)%nat -> (i < length data / (2 * numChannels))%nat ->
  channelData (decodeAudioData data ctx rate numChannels) !! channel ≫= (.!! i)
  = Some (sample_at (int16_view data) (i * numChannels + channel)).
Proof.
  intros Hc Hi. unfold decodeAudioData. cbn [channelData].
  rewrite list_lookup_fmap, lookup_seq_lt by assumption. cbn.
  rewrite list_lookup_fmap, lookup_seq_lt by assumption. reflexivity.
Qed.

End Pcm.

Section PcmClaims.

Context {Ctx : Type} (ctx : Ctx).

(** C1: in the buffer [decodeAudioData] returns, the sample of frame [i] on
    channel [c] is made from the byte pair at sample index
    [i * numChannels + c]: the pair is read little-endian as a signed
    16-bit two's-complement integer (within [-32768, 32767] and congruent
    to [lo + 256 * hi] modulo 2^16) and divided by 32768.0, an exact
    division.  In particular the pair [0x00, 0x80] is -32768 and gives
    exactly -1.0, and the pair [0xFF, 0x7F] is 32767 and gives exactly
    32767/32768. *)
Theorem decodeAudioData_samples :
  (forall (data : list byte) (rate : Z) (numChannels channel i : nat),
      (channel < numChannels)%nat ->
      (i < length data / (2 * numChannels))%nat ->
      exists lo hi sample,
        data !! (2 * (i * numChannels + channel))%nat = Some lo /\
        data !! (2 * (i * numChannels + channel) + 1)%nat = Some hi /\
        channelData (decodeAudioData data ctx rate numChannels) !! channel
          ≫= (.!! i) = Some sample /\
        sample = number_div (number_of_Z (int16_of_bytes lo hi)) (number_of_Z 32768) /\
        -32768 <= int16_of_bytes lo hi < 32768 /\
        int16_of_bytes lo hi mod 65536 = byte_to_Z lo + 256 * byte_to_Z hi /\
        is_finite sample = true /\
        Qeq (SF2Q sample) (int16_of_bytes lo hi # 32768)) /\
  (int16_of_bytes x00 x80 = -32768 /\
   exists sample,
     channelData (decodeAudioData [x00; x80] ctx 24000 1) = [[sample]] /\
     Qeq (SF2Q sample) (-1)) /\
  (int16_of_bytes xff x7f = 32767 /\
   exists sample,
     channelData (decodeAudioData [xff; x7f] ctx 24000 1) = [[sample]] /\
     Qeq (SF2Q sample) (32767 # 32768)).
Proof.
  split; [| split].
  - intros data rate numChannels channel i Hc Hi.
    pose proof (frame_index_in_range _ _ _ _ Hc Hi) as Hk.
    destruct (int16_view_lookup data _ Hk) as (lo & hi & Hlo & Hhi & Hv).
    pose proof (int16_of_bytes_range lo hi) as Hrange.
    destruct (normalize_exact _ Hrange) as [Hfin Hq].
    exists lo, hi, (normalize (int16_of_bytes lo hi)).
    repeat split; try assumption; try lia.
    + rewrite channelData_lookup by assumption.
      unfold sample_at. rewrite Hv. reflexivity.
    + apply int16_of_bytes_mod.
  - split; [reflexivity |]. eexists. split; [reflexivity |]. reflexivity.
  - split; [reflexivity |]. eexists. split; [reflexivity |]. reflexivity.
Qed.


End PcmClaims.

Lemma decodeAudioData_samples_witness :
  exists lo hi sample,
    [x01; x00; x00; x80; xff] !! 2%nat = Some lo /\
    [x01; x00; x00; x80; xff] !! 3%nat = Some hi /\
    channelData
      (decodeAudioData [x01; x00; x00; x80; xff] tt 24000 1) !! 0%nat
      ≫= (.!! 1%nat) = Some sample /\
    Qeq (SF2Q sample) (int16_of_bytes lo hi # 32768).
Proof.
  destruct (proj1 (decodeAudioData_samples tt)
              [x01; x00; x00; x80; xff] 24000 1%nat 0%nat 1%nat
              ltac:(lia) ltac:(cbn; lia))
    as (lo & hi & sample & Hlo & Hhi & Hs & _ & _ & _ & _ & Hq).
  exists lo, hi, sample. repeat split; assumption.
Defined.


(** * Properties of the base64 decoder *)

Section Base64.

(** Lists taken four, and three, elements at a time. *)
Lemma quads_ind {A} (P : list A -> Prop) :
  P [] -> (forall a, P [a]) -> (forall a b, P [a; b]) ->
  (forall a b c, P [a; b; c]) ->
  (forall a b c d l, P l -> P (a :: b :: c :: d :: l)) ->
  forall l, P l.
Proof.
  intros H0 H1 H2 H3 Hstep l.
  assert (H : P l /\ (forall a, P (a :: l)) /\ (forall a b, P (a :: b :: l)) /\
              (forall a b c, P (a :: b :: c :: l))); [| apply H].
  induction l as [|x l (IH0 & IH1 & IH2 & IH3)]; repeat split; auto.
Qed.

Lemma triples_ind {A} (P : list A -> Prop) :
  P [] -> (forall a, P [a]) -> (forall a b, P [a; b]) ->
  (forall a b c l, P l -> P (a :: b :: c :: l)) ->
  forall l, P l.
Proof.
  intros H0 H1 H2 Hstep l.
  assert (H : P l /\ (forall a, P (a :: l)) /\ (forall a b, P (a :: b :: l)));
    [| apply H].
  induction l as [|x l (IH0 & IH1 & IH2)]; repeat split; auto.
Qed.

Lemma table_agrees_all (c : ascii) : table_agrees c = true.
Proof.
  destruct c as [[] [] [] [] [] [] [] []]; vm_compute; reflexivity.
Qed.

Lemma char_kind_total (c : ascii) : char_kind c.
Proof.
  pose proof (table_agrees_all c) as H. unfold table_agrees in H.
  destruct (sextet_of_char c) as [n|[]] eqn:Hs;
    destruct (alphabet_index c) as [i|] eqn:Hi; try discriminate.
  - apply andb_true_iff in H as [H Hpad]. apply andb_true_iff in H as [H Hhi].
    apply andb_true_iff in H as [Heq Hlo].
    apply Z.eqb_eq in Heq. apply Z.leb_le in Hlo. apply Z.ltb_lt in Hhi.
    apply negb_true_iff in Hpad.
    apply (kind_digit c n); try lia; try assumption.
    + rewrite Hi, Heq, Nat2Z.id. reflexivity.
    + unfold in_alphabet. rewrite Hi. reflexivity.
  - destruct (is_pad c) eqn:Hpad.
    + apply kind_pad; try assumption; try reflexivity.
      unfold in_alphabet. rewrite Hi. reflexivity.
    + apply kind_foreign; try assumption; try reflexivity.
      unfold in_alphabet. rewrite Hi. reflexivity.
Qed.

Lemma decode_chars_quad (a b c d e : ascii) (rest : list ascii) :
  decode_chars (a :: b :: c :: d :: e :: rest)
  = (front ← decode_quad a b c d;
     back ← decode_chars (e :: rest);
     Ok (front ++ back)).
Proof. reflexivity. Qed.

Lemma length_quad_mod {A} (a b c d : A) (l : list A) :
  (length (a :: b :: c :: d :: l) mod 4 = length l mod 4)%nat.
Proof.
  cbn [length].
  replace (S (S (S (S (length l))))) with (length l + 1 * 4)%nat by lia.
  apply Nat.Div0.mod_add.
Qed.

(** Every failure of the decoder is a [MalformedEncodingError]. *)
Lemma decode_chars_error (cs : list ascii) (e : error) :
  decode_chars cs = Err e -> e = MalformedEncodingError.
Proof.
  induction cs as [| a | a b | a b c | a b c d rest IH] using quads_ind;
    try (cbn; congruence).
  destruct rest as [|x rest].
  - cbn [decode_chars]. unfold decode_last, decode_quad.
    destruct (char_kind_total a), (char_kind_total b),
             (char_kind_total c), (char_kind_total d);
      repeat match goal with H : _ = _ |- _ => rewrite H end;
      cbn; congruence.
  - rewrite decode_chars_quad. unfold decode_quad.
    destruct (char_kind_total a), (char_kind_total b),
             (char_kind_total c), (char_kind_total d);
      repeat match goal with H : sextet_of_char _ = _ |- _ => rewrite H end;
      cbn [mbind result_bind]; try congruence.
    destruct (decode_chars (x :: rest)) eqn:E; cbn [mbind result_bind];
      [congruence |].
    intros [= <-]. now apply IH.
Qed.

(** The decoder succeeds exactly on the inputs that are not malformed. *)
Lemma decode_chars_ok (cs : list ascii) :
  is_ok (decode_chars cs) = negb (outside_alphabet cs || negb (valid_padding cs)).
Proof.
  induction cs as [| a | a b | a b c | a b c d rest IH] using quads_ind.
  - reflexivity.
  - cbn. now rewrite orb_true_r.
  - cbn. now rewrite orb_true_r.
  - cbn. now rewrite orb_true_r.
  - destruct rest as [|x rest].
    + cbn [decode_chars]. unfold decode_last, decode_quad, valid_padding.
      cbn [outside_alphabet existsb pads_only_at_end forallb length].
      destruct (char_kind_total a), (char_kind_total b),
               (char_kind_total c), (char_kind_total d);
        repeat match goal with H : _ = _ |- _ => rewrite H end;
        reflexivity.
    + rewrite decode_chars_quad. remember (x :: rest) as tail eqn:Htail.
      unfold outside_alphabet, valid_padding, decode_quad in *.
      rewrite length_quad_mod.
      cbn [existsb pads_only_at_end].
      assert (Hlen1 : (length tail mod 4 =? 0)%nat && (length tail <=? 1)%nat = false).
      { subst tail. destruct rest; [reflexivity |]. cbn [length Nat.leb].
        apply andb_false_r. }
      assert (Hlen0 : (length tail <=? 0)%nat = false) by (subst tail; reflexivity).
      destruct (char_kind_total a), (char_kind_total b),
               (char_kind_total c), (char_kind_total d);
        repeat match goal with
               | H : sextet_of_char _ = _ |- _ => rewrite H
               | H : in_alphabet _ = _ |- _ => rewrite H
               | H : is_pad _ = _ |- _ => rewrite H
               end;
        cbn [mbind result_bind is_ok orb negb andb length Nat.leb];
        rewrite ?Hlen0, ?andb_assoc, ?Hlen1, ?andb_false_r, ?orb_true_r;
        try reflexivity.
      rewrite <- IH.
      destruct (decode_chars tail); reflexivity.
Qed.

(** *** The bytes the decoder produces *)

Lemma same_bits_eq (xs ys : list bool) : same_bits xs ys = true -> xs = ys.
Proof.
  revert ys. induction xs as [|x xs IH]; intros [|y ys]; cbn; try discriminate.
  - reflexivity.
  - intros [Hxy Hrest]%andb_true_iff. apply Bool.eqb_prop in Hxy.
    f_equal; auto.
Qed.

(** A property of two sextets holds when it holds on the 64 * 64 pairs. *)
Lemma sextet_pairs (P : Z -> Z -> bool) :
  forallb (fun x => forallb (P x) (upto 64)) (upto 64) = true ->
  forall x y, 0 <= x < 64 -> 0 <= y < 64 -> P x y = true.
Proof.
  intros Hall x y Hx Hy.
  rewrite forallb_forall in Hall. specialize (Hall x (elem_of_upto 64 x Hx)).
  rewrite forallb_forall in Hall. exact (Hall y (elem_of_upto 64 y Hy)).
Qed.

(** The three bytes of a group, bit by bit: the first is the six bits of
    the first sextet and the top two of the second, and so on. *)
Lemma first_byte_bits (sa sb : Z) :
  0 <= sa < 64 -> 0 <= sb < 64 ->
  bits 8 (sa * 4 + sb / 16) = bits 6 sa ++ take 2 (bits 6 sb).
Proof.
  intros Ha Hb. apply same_bits_eq.
  apply (sextet_pairs
           (fun x y => same_bits (bits 8 (x * 4 + y / 16))
                                 (bits 6 x ++ take 2 (bits 6 y))));
    [vm_compute; reflexivity | assumption | assumption].
Qed.

Lemma second_byte_bits (sb sc : Z) :
  0 <= sb < 64 -> 0 <= sc < 64 ->
  bits 8 ((sb mod 16) * 16 + sc / 4) = drop 2 (bits 6 sb) ++ take 4 (bits 6 sc).
Proof.
  intros Hb Hc. apply same_bits_eq.
  apply (sextet_pairs
           (fun x y => same_bits (bits 8 ((x mod 16) * 16 + y / 4))
                                 (drop 2 (bits 6 x) ++ take 4 (bits 6 y))));
    [vm_compute; reflexivity | assumption | assumption].
Qed.

Lemma third_byte_bits (sc sd : Z) :
  0 <= sc < 64 -> 0 <= sd < 64 ->
  bits 8 ((sc mod 4) * 64 + sd) = drop 4 (bits 6 sc) ++ bits 6 sd.
Proof.
  intros Hc Hd. apply same_bits_eq.
  apply (sextet_pairs
           (fun x y => same_bits (bits 8 ((x mod 4) * 64 + y))
                                 (drop 4 (bits 6 x) ++ bits 6 y)));
    [vm_compute; reflexivity | assumption | assumption].
Qed.

Lemma byte_bits_cons (b : byte) (bs : list byte) :
  byte_bits (b :: bs) = bits 8 (byte_to_Z b) ++ byte_bits bs.
Proof. reflexivity. Qed.

Lemma byte_bits_app (xs ys : list byte) :
  byte_bits (xs ++ ys) = byte_bits xs ++ byte_bits ys.
Proof. unfold byte_bits. apply flat_map_app. Qed.

Lemma byte_bits_length (bs : list byte) : length (byte_bits bs) = (8 * length bs)%nat.
Proof.
  induction bs as [|b bs IH]; [reflexivity |].
  rewrite byte_bits_cons, length_app, IH. cbn [length]. cbn. lia.
Qed.

Lemma text_bits_digit (c : ascii) (n : Z) (cs : list ascii) :
  0 <= n -> alphabet_index c = Some (Z.to_nat n) ->
  text_bits (c :: cs) = bits 6 n ++ text_bits cs.
Proof.
  intros Hn Hi. unfold text_bits. cbn [flat_map]. rewrite Hi, Z2Nat.id by lia.
  reflexivity.
Qed.

Lemma text_bits_pad (c : ascii) (cs : list ascii) :
  alphabet_index c = None -> text_bits (c :: cs) = text_bits cs.
Proof.
  intros Hi. unfold text_bits. cbn [flat_map]. rewrite Hi. reflexivity.
Qed.

(** A full group yields the 24 bits of its four characters. *)
Lemma decode_quad_bits (a b c d : ascii) (front : list byte) (rest : list ascii) :
  decode_quad a b c d = Ok front ->
  length front = 3%nat /\
  text_bits (a :: b :: c :: d :: rest) = byte_bits front ++ text_bits rest.
Proof.
  unfold decode_quad.
  destruct (char_kind_total a) as [sa Ha Hsa Hia _ _ | Hsa _ _ _ | Hsa _ _ _];
    rewrite Hsa; cbn [mbind result_bind]; try discriminate.
  destruct (char_kind_total b) as [sb Hb Hsb Hib _ _ | Hsb _ _ _ | Hsb _ _ _];
    rewrite Hsb; cbn [mbind result_bind]; try discriminate.
  destruct (char_kind_total c) as [sc Hc Hsc Hic _ _ | Hsc _ _ _ | Hsc _ _ _];
    rewrite Hsc; cbn [mbind result_bind]; try discriminate.
  destruct (char_kind_total d) as [sd Hd Hsd Hid _ _ | Hsd _ _ _ | Hsd _ _ _];
    rewrite Hsd; cbn [mbind result_bind]; try discriminate.
  intros [= <-]. split; [reflexivity |].
  rewrite (text_bits_digit a sa), (text_bits_digit b sb),
    (text_bits_digit c sc), (text_bits_digit d sd) by (lia || assumption).
  rewrite !byte_bits_cons.
  rewrite !byte_to_of_Z by (Z.div_mod_to_equations; lia).
  rewrite first_byte_bits, second_byte_bits, third_byte_bits by assumption.
  change (byte_bits []) with (@nil bool).
  rewrite <- (take_drop 2 (bits 6 sb)) at 3.
  rewrite <- (take_drop 4 (bits 6 sc)) at 3.
  rewrite <- !app_assoc. reflexivity.
Qed.

(** The last group yields as many whole bytes as its characters carry. *)
Lemma decode_last_bits (a b c d : ascii) (bs : list byte) :
  decode_last a b c d = Ok bs ->
  byte_bits bs = take (8 * length bs) (text_bits [a; b; c; d]) /\
  length bs = (length (text_bits [a; b; c; d]) / 8)%nat.
Proof.
  unfold decode_last.
  destruct (char_kind_total d) as [sd Hd Hsd Hid _ Hpd | _ Hid _ Hpd | Hsd _ _ Hpd];
    rewrite Hpd.
  - intros Hq. destruct (decode_quad_bits a b c d bs [] Hq) as [Hlen Hbits].
    rewrite Hbits. change (text_bits []) with (@nil bool).
    rewrite app_nil_r, byte_bits_length, Hlen.
    split; [| reflexivity].
    rewrite take_ge; [reflexivity |]. rewrite byte_bits_length, Hlen. lia.
  - destruct (char_kind_total c) as [sc Hc Hsc Hic _ Hpc | _ Hic _ Hpc | Hsc _ _ Hpc];
      rewrite Hpc.
    + destruct (char_kind_total a) as [sa Ha Hsa Hia _ _ | Hsa _ _ _ | Hsa _ _ _];
        rewrite Hsa; cbn [mbind result_bind]; try discriminate.
      destruct (char_kind_total b) as [sb Hb Hsb Hib _ _ | Hsb _ _ _ | Hsb _ _ _];
        rewrite Hsb; cbn [mbind result_bind]; try discriminate.
      rewrite Hsc. cbn [mbind result_bind]. intros [= <-].
      rewrite (text_bits_digit a sa), (text_bits_digit b sb),
        (text_bits_digit c sc), (text_bits_pad d) by (lia || assumption).
      rewrite !byte_bits_cons.
      rewrite !byte_to_of_Z by (Z.div_mod_to_equations; lia).
      rewrite first_byte_bits, second_byte_bits by assumption.
      split; reflexivity.
    + destruct (char_kind_total a) as [sa Ha Hsa Hia _ _ | Hsa _ _ _ | Hsa _ _ _];
        rewrite Hsa; cbn [mbind result_bind]; try discriminate.
      destruct (char_kind_total b) as [sb Hb Hsb Hib _ _ | Hsb _ _ _ | Hsb _ _ _];
        rewrite Hsb; cbn [mbind result_bind]; try discriminate.
      intros [= <-].
      rewrite (text_bits_digit a sa), (text_bits_digit b sb),
        (text_bits_pad c), (text_bits_pad d) by (lia || assumption).
      rewrite !byte_bits_cons.
      rewrite !byte_to_of_Z by (Z.div_mod_to_equations; lia).
      rewrite first_byte_bits by assumption.
      split; reflexivity.
    + destruct (sextet_of_char a); cbn [mbind result_bind]; try discriminate.
      destruct (sextet_of_char b); cbn [mbind result_bind]; try discriminate.
      rewrite Hsc. discriminate.
  - unfold decode_quad.
    destruct (sextet_of_char a); cbn [mbind result_bind]; try discriminate.
    destruct (sextet_of_char b); cbn [mbind result_bind]; try discriminate.
    destruct (sextet_of_char c); cbn [mbind result_bind]; try discriminate.
    rewrite Hsd. discriminate.
Qed.

(** The decoded bytes are the bits of the text, eight at a time and in
    order, as far as whole bytes go. *)
Lemma decode_chars_bits (cs : list ascii) (bs : list byte) :
  decode_chars cs = Ok bs ->
  byte_bits bs = take (8 * length bs) (text_bits cs) /\
  length bs = (length (text_bits cs) / 8)%nat.
Proof.
  revert bs.
  induction cs as [| a | a b | a b c | a b c d rest IH] using quads_ind;
    intros bs; try (cbn; discriminate).
  - intros [= <-]. split; reflexivity.
  - destruct rest as [|x rest]; [apply decode_last_bits |].
    rewrite decode_chars_quad. remember (x :: rest) as tail eqn:Htail.
    destruct (decode_quad a b c d) as [front|] eqn:Hq;
      cbn [mbind result_bind]; [| discriminate].
    destruct (decode_chars tail) as [back|] eqn:Hback;
      cbn [mbind result_bind]; [| discriminate].
    intros [= <-].
    destruct (decode_quad_bits a b c d front tail Hq) as [Hlen Hbits].
    destruct (IH back eq_refl) as [IHbits IHlen].
    pose proof (byte_bits_length front) as Hfront.
    rewrite Hbits, byte_bits_app, !length_app, Hfront, Hlen. split.
    + replace (8 * (3 + length back))%nat
        with (length (byte_bits front) + 8 * length back)%nat
        by (rewrite Hfront, Hlen; lia).
      rewrite take_app_add. now rewrite <- IHbits.
    + rewrite IHlen.
      replace (8 * 3 + length (text_bits tail))%nat
        with (3 * 8 + length (text_bits tail))%nat by lia.
      now rewrite Nat.div_add_l by lia.
Qed.

(** *** Encoding, then decoding *)

Lemma sextet_round_trips_all : forallb sextet_round_trips (upto 64) = true.
Proof. vm_compute. reflexivity. Qed.

Lemma sextet_of_char_of_sextet (n : Z) :
  0 <= n < 64 ->
  sextet_of_char (char_of_sextet n) = Ok n /\ is_pad (char_of_sextet n) = false.
Proof.
  intros Hn. pose proof sextet_round_trips_all as Hall.
  rewrite forallb_forall in Hall. specialize (Hall n (elem_of_upto 64 n Hn)).
  unfold sextet_round_trips in Hall.
  destruct (sextet_of_char (char_of_sextet n)) as [m|]; [| discriminate].
  apply andb_true_iff in Hall as [Hm Hpad].
  apply Z.eqb_eq in Hm. apply negb_true_iff in Hpad. subst m. auto.
Qed.

Lemma encode_bytes_nonempty (b : byte) (bs : list byte) :
  exists c cs, encode_bytes (b :: bs) = c :: cs.
Proof. destruct bs as [|y [|z rest]]; cbn; eauto. Qed.

(** Rewrite with what the table gives back for the sextet [n]. *)
Ltac use_sextet n :=
  let Hs := fresh "Hs" in
  let Hp := fresh "Hp" in
  destruct (sextet_of_char_of_sextet n) as [Hs Hp];
  [Z.div_mod_to_equations; lia | rewrite ?Hs, ?Hp; clear Hs Hp].

Lemma decode_quad_encode (x y z : byte) :
  decode_quad
    (char_of_sextet (byte_to_Z x / 4))
    (char_of_sextet ((byte_to_Z x mod 4) * 16 + byte_to_Z y / 16))
    (char_of_sextet ((byte_to_Z y mod 16) * 4 + byte_to_Z z / 64))
    (char_of_sextet (byte_to_Z z mod 64))
  = Ok [x; y; z].
Proof.
  pose proof (byte_to_Z_range x). pose proof (byte_to_Z_range y).
  pose proof (byte_to_Z_range z).
  unfold decode_quad.
  use_sextet (byte_to_Z x / 4).
  use_sextet ((byte_to_Z x mod 4) * 16 + byte_to_Z y / 16).
  use_sextet ((byte_to_Z y mod 16) * 4 + byte_to_Z z / 64).
  use_sextet (byte_to_Z z mod 64).
  cbn [mbind result_bind].
  replace (Ok [x; y; z])
    with (Ok [byte_of_Z (byte_to_Z x); byte_of_Z (byte_to_Z y);
              byte_of_Z (byte_to_Z z)])
    by (now rewrite !byte_of_to_Z).
  repeat f_equal; Z.div_mod_to_equations; lia.
Qed.

(** Decoding an encoded byte sequence gives the sequence back. *)
Lemma decode_encode_bytes (bs : list byte) :
  decode_chars (encode_bytes bs) = Ok bs.
Proof.
  induction bs as [| x | x y | x y z rest IH] using triples_ind.
  - reflexivity.
  - pose proof (byte_to_Z_range x).
    cbn [encode_bytes decode_chars]. unfold decode_last.
    change (is_pad pad) with true. cbv iota.
    use_sextet (byte_to_Z x / 4).
    use_sextet ((byte_to_Z x mod 4) * 16).
    cbn [mbind result_bind].
    replace (Ok [x]) with (Ok [byte_of_Z (byte_to_Z x)])
      by (now rewrite !byte_of_to_Z).
    repeat f_equal; Z.div_mod_to_equations; lia.
  - pose proof (byte_to_Z_range x). pose proof (byte_to_Z_range y).
    cbn [encode_bytes decode_chars]. unfold decode_last.
    change (is_pad pad) with true. cbv iota.
    use_sextet (byte_to_Z x / 4).
    use_sextet ((byte_to_Z x mod 4) * 16 + byte_to_Z y / 16).
    use_sextet ((byte_to_Z y mod 16) * 4).
    cbn [mbind result_bind].
    replace (Ok [x; y])
      with (Ok [byte_of_Z (byte_to_Z x); byte_of_Z (byte_to_Z y)])
      by (now rewrite !byte_of_to_Z).
    repeat f_equal; Z.div_mod_to_equations; lia.
  - pose proof (decode_quad_encode x y z) as Hq.
    cbn [encode_bytes]. cbv zeta.
    destruct rest as [|w rest].
    + cbn [encode_bytes decode_chars]. unfold decode_last.
      pose proof (byte_to_Z_range z).
      destruct (sextet_of_char_of_sextet (byte_to_Z z mod 64)) as [_ Hp];
        [Z.div_mod_to_equations; lia |].
      rewrite Hp. exact Hq.
    + destruct (encode_bytes_nonempty w rest) as (c & cs & Hcs).
      rewrite Hcs, decode_chars_quad, <- Hcs, Hq, IH. reflexivity.
Qed.

End Base64.

Section Base64Claims.

(** C4: [decode] fails with [MalformedEncodingError], and with nothing
    else, exactly when its input holds a character outside the base64
    alphabet or has invalid padding.  On every other input it returns
    the decoded bytes: as many whole bytes as the characters carry bits,
    and bit for bit the sextets of the characters in their order.  The
    result depends on the input alone. *)
Theorem decode_malformed (base64 : string) :
  let cs := list_ascii_of_string base64 in
  (decode base64 = Err MalformedEncodingError <->
   outside_alphabet cs = true \/ valid_padding cs = false) /\
  (forall e, decode base64 = Err e -> e = MalformedEncodingError) /\
  (outside_alphabet cs = false -> valid_padding cs = true ->
   exists bs, decode base64 = Ok bs /\
              length bs = (length (text_bits cs) / 8)%nat /\
              byte_bits bs = take (8 * length bs) (text_bits cs)).
Proof.
  intros cs. unfold decode. fold cs.
  pose proof (decode_chars_ok cs) as Hok.
  pose proof (decode_chars_error cs) as Herr.
  split; [| split].
  - split.
    + intros Hfail. rewrite Hfail in Hok. cbn in Hok.
      symmetry in Hok. apply negb_false_iff, orb_true_iff in Hok.
      destruct Hok as [Hout | Hpad]; [left | right]; [assumption |].
      now apply negb_true_iff.
    + intros Hbad. destruct (decode_chars cs) as [bs | e] eqn:Hd.
      * cbn in Hok. symmetry in Hok. apply negb_true_iff, orb_false_iff in Hok.
        destruct Hok as [Hout Hpad]. apply negb_false_iff in Hpad.
        destruct Hbad; congruence.
      * now rewrite (Herr e eq_refl).
  - exact Herr.
  - intros Hout Hpad. rewrite Hout, Hpad in Hok. cbn in Hok.
    destruct (decode_chars cs) as [bs | e] eqn:Hd; [| discriminate].
    destruct (decode_chars_bits cs bs Hd) as [Hbits Hlen].
    exists bs. auto.
Qed.

(** C5: for every valid base64 string [s], decoding succeeds, and encoding
    the decoded bytes and decoding again gives the same bytes:
    [decode (encode (decode s)) = decode s]. *)
Theorem decode_encode_decode (s : string) :
  malformed s = false ->
  exists bs, decode s = Ok bs /\
             decode (encode bs) = decode s /\
             (decode s ≫= fun decoded => decode (encode decoded)) = decode s.
Proof.
  intros Hvalid. unfold malformed in Hvalid. cbv zeta in Hvalid.
  assert (Hdec : exists bs, decode s = Ok bs).
  { unfold decode.
    pose proof (decode_chars_ok (list_ascii_of_string s)) as Hok.
    rewrite Hvalid in Hok.
    destruct (decode_chars (list_ascii_of_string s)) as [bs|];
      [eauto | discriminate]. }
  destruct Hdec as (bs & Hbs).
  assert (Hround : decode (encode bs) = Ok bs).
  { unfold decode, encode. rewrite list_ascii_of_string_of_list_ascii.
    apply decode_encode_bytes. }
  exists bs. rewrite Hbs. cbn [mbind result_bind]. auto.
Qed.

End Base64Claims.

Lemma decode_malformed_witness :
  exists bs, decode "TWE=" = Ok bs /\ length bs = 2%nat.
Proof.
  destruct (decode_malformed "TWE=") as (_ & _ & H).
  destruct (H eq_refl eq_refl) as (bs & Hbs & Hlen & _).
  exists bs. split; [exact Hbs | exact Hlen].
Defined.

Lemma decode_encode_decode_witness :
  exists bs, decode "TWFuTQ==" = Ok bs /\
             decode (encode bs) = decode "TWFuTQ==".
Proof.
  destruct (decode_encode_decode "TWFuTQ==" eq_refl) as (bs & Hbs & Hround & _).
  exists bs. split; assumption.
Defined.

(** * Properties of the component *)

Section Reachability.

Lemma run_app (w : World) (xs ys : list Event) :
  run w (xs ++ ys) = run (run w xs) ys.
Proof. unfold run. apply fold_left_app. Qed.

Lemma run_snoc (w : World) (xs : list Event) (e : Event) :
  run w (xs ++ [e]) = step (run w xs) e.
Proof. rewrite run_app. reflexivity. Qed.

(** A property of the mounted component that every step keeps holds after
    every run. *)
Lemma run_ind (P : World -> Prop) (p : Platform) :
  P (mount p) -> (forall w e, P w -> P (step w e)) ->
  forall events, P (run (mount p) events).
Proof.
  intros Hinit Hstep events.
  induction events as [|e events IH] using rev_ind; [exact Hinit |].
  rewrite run_snoc. now apply Hstep.
Qed.

Lemma isGenerating_flagsAt (a : Await) : isGenerating (flagsAt a) = true.
Proof. destruct a; reflexivity. Qed.

Lemma invariant_mount (p : Platform) : invariant (mount p).
Proof.
  unfold invariant, mount.
  destruct p as [[] [] []]; cbn; repeat split; auto; congruence.
Qed.

(** Close the cases of the invariant after a step has been computed. *)
Ltac finish_invariant :=
  cbn;
  repeat match goal with
         | |- _ /\ _ => split
         end;
  try assumption; try congruence;
  try (left; split; reflexivity);
  try (right; eexists; split; [reflexivity |]; split; [reflexivity |];
       congruence).

(** Every step keeps the invariant. *)
Lemma invariant_step (w : World) (e : Event) : invariant w -> invariant (step w e).
Proof.
  intros Hinv. pose proof Hinv as Hsame. revert Hinv.
  destruct w as [[ch ms input ld img ab playing] ctx ref nodes n cs runs client].
  unfold invariant.
  cbn [ui inflight loading audioContextRef audioBuffer isPlaying audioSourceRef].
  intros (Hrun & Hbuf & Hsrc).
  destruct e as [value | | | node | k r | k r | k r | k r | k]; cbn [step inflight].
  - cbn. auto.
  - unfold handleSendMessage.
    cbn [ui userInput chat loading].
    destruct (negb (truthy (trim input)) || isNull ch || isGenerating ld) eqn:G;
      [exact Hsame |].
    apply orb_false_iff in G as [_ G].
    destruct Hrun as [[-> ->] | (a & -> & -> & Hd)].
    + finish_invariant.
    + rewrite isGenerating_flagsAt in G. discriminate.
  - unfold handlePlayPause. cbn.
    destruct ctx as [c|], ab as [b|]; try exact Hsame.
    destruct playing; [destruct ref |]; finish_invariant.
  - unfold onended. cbn [sources].
    destruct (nodes !! node) as [nd|]; [| exact Hsame].
    destruct (status nd); try exact Hsame; finish_invariant.
  - destruct Hrun as [[-> ->] | (a & -> & -> & Hd)]; [exact Hsame |].
    destruct k as [|k]; [| exact Hsame].
    destruct a; try exact Hsame.
    destruct r; finish_invariant.
  - destruct Hrun as [[-> ->] | (a & -> & -> & Hd)]; [exact Hsame |].
    destruct k as [|k]; [| exact Hsame].
    destruct a; try exact Hsame.
    cbn [lookup list_lookup]. unfold afterImagePrompt. cbn [ai].
    destruct (generateImagePrompt client r) as [prompt|]; [destruct (truthy prompt) |];
      finish_invariant.
  - destruct Hrun as [[-> ->] | (a & -> & -> & Hd)]; [exact Hsame |].
    destruct k as [|k]; [| exact Hsame].
    destruct a; try exact Hsame.
    cbn [lookup list_lookup]. unfold afterImage. cbn [ai].
    destruct (generateMeditationImage client r) as [data|]; [destruct (truthy data) |];
      finish_invariant.
  - destruct Hrun as [[-> ->] | (a & -> & -> & Hd)]; [exact Hsame |].
    destruct k as [|k]; [| exact Hsame].
    destruct a; try exact Hsame.
    cbn [lookup list_lookup]. unfold afterAudio. cbn [ai audioContextRef].
    destruct (generateMeditationAudio client r) as [data|]; [| finish_invariant].
    destruct ctx as [c|]; [| finish_invariant].
    destruct (truthy data); [| finish_invariant].
    destruct (decode data); finish_invariant.
  - destruct Hrun as [[-> ->] | (a & -> & -> & Hd)]; [exact Hsame |].
    destruct k as [|k]; [| exact Hsame].
    destruct a; try exact Hsame.
    cbn [lookup list_lookup]. specialize (Hd decoded eq_refl). finish_invariant.
Qed.

(** Hence it holds after every run from the mounted component. *)
Lemma invariant_run (p : Platform) (events : list Event) :
  invariant (run (mount p) events).
Proof.
  apply run_ind; [apply invariant_mount | intros w e; apply invariant_step].
Qed.

Lemma filter_snoc_false {A} (f : A -> bool) (l : list A) (x : A) :
  f x = false -> List.filter f (l ++ [x]) = List.filter f l.
Proof. intros H. rewrite List.filter_app. cbn. rewrite H. apply app_nil_r. Qed.

(** No step constructs an audio context or touches the ref that holds it. *)
Lemma context_step (w : World) (e : Event) :
  audioContextRef (step w e) = audioContextRef w /\
  contextsCreated (step w e) = contextsCreated w /\
  constructions (step w e) = constructions w.
Proof.
  destruct w as [[ch ms input ld img ab playing] ctx ref nodes n cs runs client].
  unfold constructions.
  destruct e as [value | | | node | k r | k r | k r | k r | k]; cbn [step inflight].
  - auto.
  - unfold handleSendMessage. cbn [ui userInput chat loading].
    destruct (negb (truthy (trim input)) || isNull ch || isGenerating ld); [auto |].
    cbn. now rewrite filter_snoc_false.
  - unfold handlePlayPause. cbn.
    destruct ctx as [c|], ab as [b|]; auto.
    destruct playing; [destruct ref |]; cbn; rewrite ?filter_snoc_false; auto.
  - unfold onended. cbn [sources].
    destruct (nodes !! node) as [nd|]; [| auto].
    destruct (status nd); auto.
  - destruct (runs !! k) as [[]|]; auto.
    destruct r; cbn; auto.
    rewrite <- app_assoc. cbn.
    rewrite List.filter_app. cbn. rewrite app_nil_r. auto.
  - destruct (runs !! k) as [[]|]; auto.
    unfold afterImagePrompt. cbn [ai].
    destruct (generateImagePrompt client r) as [prompt|]; [destruct (truthy prompt) |];
      cbn; rewrite ?filter_snoc_false; auto.
  - destruct (runs !! k) as [[]|]; auto.
    unfold afterImage. cbn [ai].
    destruct (generateMeditationImage client r) as [data|]; [destruct (truthy data) |];
      cbn; auto.
  - destruct (runs !! k) as [[]|]; auto.
    unfold afterAudio. cbn [ai audioContextRef].
    destruct (generateMeditationAudio client r) as [data|]; [| cbn; auto].
    destruct ctx as [c|]; [| cbn; auto].
    destruct (truthy data); [| cbn; auto].
    destruct (decode data); cbn; auto.
  - destruct (runs !! k) as [[]|]; auto.
Qed.

(** C8, with the failure of start-up taken into account: the audio context is created at most once, by the
    initialization effect and with sample rate 24000 Hz: exactly once when
    the three constructions of the effect succeed, and not at all when one
    of them throws, the ref staying null.  No event after mounting
    constructs a context, replaces the ref or changes the count. *)
Theorem audio_context_created_at_startup (p : Platform) (events : list Event) :
  let w0 := mount p in
  let w := run w0 events in
  (contextsCreated w0 <= 1)%nat /\
  (genAIConstructs p && chatCreates p && audioContextConstructs p = true ->
   contextsCreated w0 = 1%nat /\
   audioContextRef w0 = Some {| contextId := 0; contextSampleRate := 24000 |}) /\
  (genAIConstructs p && chatCreates p && audioContextConstructs p = false ->
   contextsCreated w0 = 0%nat /\ audioContextRef w0 = None) /\
  audioContextRef w = audioContextRef w0 /\
  contextsCreated w = contextsCreated w0 /\
  constructions w = constructions w0.
Proof.
  intros w0 w.
  split; [| split; [| split]].
  - subst w0. destruct p as [[] [] []]; cbn; lia.
  - subst w0. destruct p as [[] [] []]; cbn; intros; try discriminate; auto.
  - subst w0. destruct p as [[] [] []]; cbn; intros; try discriminate; auto.
  - subst w w0.
    apply (run_ind (fun w => audioContextRef w = audioContextRef (mount p) /\
                             contextsCreated w = contextsCreated (mount p) /\
                             constructions w = constructions (mount p))).
    + auto.
    + intros w e (H1 & H2 & H3).
      destruct (context_step w e) as (E1 & E2 & E3).
      rewrite E1, E2, E3. auto.
Qed.

(** C8 does not hold where [new GoogleGenAI(...)] throws: the [try] block
    is left before the audio context is constructed. *)
Lemma audio_context_not_created_without_api_key : ~ createdExactlyOnce noApiKey [].
Proof. unfold createdExactlyOnce. cbn. discriminate. Qed.

(** *** The guards of the two handlers *)

Lemma callsSince_same (w : World) : callsSince w w = [].
Proof. unfold callsSince. apply drop_all. Qed.

Lemma handleSendMessage_blocked (w : World) :
  isGenerating (loading (ui w)) = true -> handleSendMessage w = w.
Proof.
  intros H. unfold handleSendMessage. rewrite H, orb_true_r. reflexivity.
Qed.

(** C9: when the audio context or the audio buffer is null,
    [handlePlayPause] returns at once: the whole state is unchanged, no
    call is made, so neither play nor stop occurs, and the null value is
    never used. *)
Theorem handlePlayPause_guard (w : World) :
  audioContextRef w = None \/ audioBuffer (ui w) = None ->
  handlePlayPause w = w /\
  callsSince w (handlePlayPause w) = [] /\
  sources (handlePlayPause w) = sources w.
Proof.
  intros Hnull.
  assert (Hsame : handlePlayPause w = w).
  { unfold handlePlayPause.
    destruct Hnull as [-> | ->]; [reflexivity |].
    destruct (audioContextRef w); reflexivity. }
  rewrite Hsame. auto using callsSince_same.
Qed.

(** Only the play/pause button and the [ended] event reach the source
    nodes; no other step stops one. *)
Lemma settle_keeps_sources (w : World) (e : Event) :
  touchesAudio e = false ->
  sources (step w e) = sources w /\
  audioSourceRef (step w e) = audioSourceRef w /\
  List.filter isStopCall (callsSince w (step w e)) = [].
Proof.
  intros He.
  destruct w as [[ch ms input ld img ab playing] ctx ref nodes n cs runs client].
  unfold callsSince.
  destruct e as [value | | | node | k r | k r | k r | k r | k];
    try discriminate; cbn [step inflight calls].
  - cbn. now rewrite drop_all.
  - unfold handleSendMessage. cbn [ui userInput chat loading].
    destruct (negb (truthy (trim input)) || isNull ch || isGenerating ld);
      cbn; [now rewrite drop_all |].
    now rewrite drop_app_length.
  - destruct (runs !! k) as [[]|]; cbn; rewrite ?drop_all; auto.
    destruct r; cbn; rewrite ?drop_all; auto.
    rewrite <- app_assoc, drop_app_length. auto.
  - destruct (runs !! k) as [[]|]; cbn; rewrite ?drop_all; auto.
    unfold afterImagePrompt. cbn [ai].
    destruct (generateImagePrompt client r) as [prompt|]; [destruct (truthy prompt) |];
      cbn; rewrite ?drop_all, ?drop_app_length; auto.
  - destruct (runs !! k) as [[]|]; cbn; rewrite ?drop_all; auto.
    unfold afterImage. cbn [ai].
    destruct (generateMeditationImage client r) as [data|]; [destruct (truthy data) |];
      cbn; rewrite ?drop_all; auto.
  - destruct (runs !! k) as [[]|]; cbn; rewrite ?drop_all; auto.
    unfold afterAudio. cbn [ai audioContextRef].
    destruct (generateMeditationAudio client r) as [data|];
      [| cbn; rewrite ?drop_all; auto].
    destruct ctx as [c|]; [| cbn; rewrite ?drop_all; auto].
    destruct (truthy data); [| cbn; rewrite ?drop_all; auto].
    destruct (decode data); cbn; rewrite ?drop_all; auto.
  - destruct (runs !! k) as [[]|]; cbn; rewrite ?drop_all; auto.
Qed.

Lemma quiet_run (w : World) (events : list Event) :
  forallb (fun e => negb (touchesAudio e)) events = true ->
  sources (run w events) = sources w /\
  audioSourceRef (run w events) = audioSourceRef w.
Proof.
  revert w. induction events as [|e events IH]; intros w Hall; [auto |].
  cbn in Hall. apply andb_true_iff in Hall as [He Hall].
  apply negb_true_iff in He.
  destruct (settle_keeps_sources w e He) as (E1 & E2 & _).
  destruct (IH (step w e) Hall) as [I1 I2].
  change (run w (e :: events)) with (run (step w e) events).
  split; congruence.
Qed.

(** C10: when its guard passes, [handleSendMessage] has, by its first
    [await], cleared the stored buffer and the playing flag and made the
    one call [sendMessage]; it calls [stop()] on no source node and leaves
    the nodes and the ref as they were.  The nodes that were emitting go on
    emitting while the flag reads idle, and nothing in the rest of the
    generation cycle changes that. *)
Theorem handleSendMessage_leaves_source_playing (w : World) :
  truthy (trim (userInput (ui w))) = true ->
  chat (ui w) <> None ->
  isGenerating (loading (ui w)) = false ->
  let w' := handleSendMessage w in
  audioBuffer (ui w') = None /\
  isPlaying (ui w') = false /\
  inflight w' = inflight w ++ [AwaitScript] /\
  callsSince w w' = [SendMessage (userInput (ui w))] /\
  sources w' = sources w /\
  audioSourceRef w' = audioSourceRef w /\
  emitting w' = emitting w /\
  (forall events, forallb (fun e => negb (touchesAudio e)) events = true ->
     sources (run w' events) = sources w /\
     audioSourceRef (run w' events) = audioSourceRef w /\
     emitting (run w' events) = emitting w).
Proof.
  intros Hinput Hchat Hidle w'.
  assert (Hw' : w' =
    setInflight (fun runs => runs ++ [AwaitScript])
      (call (SendMessage (userInput (ui w)))
         (setIsPlaying false (setAudioBuffer None
            (setLoading (fun _ => {| script := true; image := true; audio := true |})
               (setUserInput ""
                  (setMessages (fun prev => prev ++ [{| role := user; content := userInput (ui w) |}]) w))))))).
  { subst w'. unfold handleSendMessage. rewrite Hinput, Hidle.
    destruct (chat (ui w)); [reflexivity | congruence]. }
  assert (Hsrc : sources w' = sources w) by (rewrite Hw'; reflexivity).
  assert (Href : audioSourceRef w' = audioSourceRef w) by (rewrite Hw'; reflexivity).
  split; [rewrite Hw'; reflexivity |].
  split; [rewrite Hw'; reflexivity |].
  split; [rewrite Hw'; reflexivity |].
  split; [rewrite Hw'; unfold callsSince; cbn; now rewrite drop_app_length |].
  split; [exact Hsrc |]. split; [exact Href |].
  split; [unfold emitting; now rewrite Hsrc |].
  intros events Hquiet.
  destruct (quiet_run w' events Hquiet) as [E1 E2].
  unfold emitting. rewrite E1, E2, Hsrc, Href. auto.
Qed.

(** C7: in every reachable state at most one run of [handleSendMessage]
    is in flight, and one is in flight exactly when one of the three
    loading flags is set; in such a state a new send changes nothing: the
    state is the same and no call is made. *)
Theorem send_blocked_while_generating (p : Platform) (events : list Event) :
  let w := run (mount p) events in
  (length (inflight w) <= 1)%nat /\
  (inflight w <> [] <-> isGenerating (loading (ui w)) = true) /\
  (isGenerating (loading (ui w)) = true ->
   handleSendMessage w = w /\ callsSince w (handleSendMessage w) = []).
Proof.
  intros w.
  destruct (invariant_run p events) as ([[Hnil Hidle] | (a & Ha & Hflags & _)] & _);
    fold w in Hnil, Hidle || fold w in Ha, Hflags.
  - rewrite Hnil, Hidle. cbn. repeat split; try lia; try congruence; try discriminate.
  - rewrite Ha. cbn [length]. repeat split; try lia; try congruence.
    + intros _. rewrite Hflags. apply isGenerating_flagsAt.
    + now apply handleSendMessage_blocked.
    + rewrite handleSendMessage_blocked by assumption. apply callsSince_same.
Qed.

(** *** One source at a time *)

Lemma filter_one_index {A} (f : A -> bool) (l : list A) :
  (forall i j x y, l !! i = Some x -> l !! j = Some y ->
                   f x = true -> f y = true -> i = j) ->
  (length (List.filter f l) <= 1)%nat.
Proof.
  induction l as [|x l IH]; intros Huniq; [cbn; lia |].
  cbn [List.filter]. destruct (f x) eqn:Hx.
  - assert (Hnone : List.filter f l = []).
    { destruct (List.filter f l) as [|y ys] eqn:Hf; [reflexivity |].
      assert (Hy : In y (List.filter f l)) by (rewrite Hf; now left).
      apply filter_In in Hy as [Hin Hfy].
      apply list_elem_of_In, list_elem_of_lookup in Hin as [j Hj].
      specialize (Huniq 0%nat (S j) x y eq_refl Hj Hx Hfy). discriminate. }
    rewrite Hnone. cbn. lia.
  - apply IH. intros i j a b Hi Hj Ha Hb.
    specialize (Huniq (S i) (S j) a b Hi Hj Ha Hb). lia.
Qed.

Lemma consistent_emitting (w : World) :
  consistent w -> (length (emitting w) <= 1)%nat.
Proof.
  intros Hc. apply filter_one_index. intros i j x y Hi Hj Hx Hy.
  unfold emits in Hx, Hy.
  destruct (status x) eqn:Sx; try discriminate.
  destruct (status y) eqn:Sy; try discriminate.
  destruct (Hc i x Hi Sx) as [_ Ri]. destruct (Hc j y Hj Sy) as [_ Rj].
  congruence.
Qed.

Lemma halt_silent (n : AudioBufferSourceNode) : status (halt n) <> Playing.
Proof. unfold halt. destruct (status n) eqn:S; cbn; congruence. Qed.

Lemma consistent_toggle (w : World) :
  (isPlaying (ui w) = true -> audioSourceRef w <> None) ->
  consistent w -> consistent (handlePlayPause w).
Proof.
  intros Hsrc Hc.
  destruct w as [[ch ms input ld img ab playing] ctx ref nodes n cs runs client].
  unfold handlePlayPause, consistent in *. cbn in *.
  destruct ctx as [c|], ab as [b|]; try exact Hc.
  destruct playing.
  - destruct ref as [r|]; [| now specialize (Hsrc eq_refl)].
    cbn. intros node nd Hlook Hplay. exfalso.
    destruct (decide (node = r)) as [-> | Hne].
    + rewrite list_lookup_alter_eq in Hlook.
      destruct (nodes !! r) as [old|]; [| cbn in Hlook; discriminate].
      cbn in Hlook. injection Hlook as <-. now apply (halt_silent old).
    + rewrite list_lookup_alter_ne in Hlook by congruence.
      destruct (Hc node nd Hlook Hplay) as [_ Hr]. congruence.
  - cbn. intros node nd Hlook Hplay. split; [reflexivity |].
    destruct (decide (node < length nodes)%nat) as [Hlt | Hge].
    + rewrite lookup_app_l in Hlook by assumption.
      destruct (Hc node nd Hlook Hplay) as [Hp _]. discriminate.
    + apply lookup_lt_Some in Hlook. rewrite length_app in Hlook. cbn in Hlook.
      f_equal. lia.
Qed.

(** X17: in every reachable state that holds an audio buffer (the states
    in which the play control is rendered), [handlePlayPause] performs
    exactly one of play and stop: when the playing flag is set it stops the
    node held by the ref, otherwise it starts a new node on the stored
    buffer and stores it in the ref.  The flag flips at each invocation, so
    two invocations in a row bring it back.  If moreover the state is
    [consistent] (every emitting node is the one held by the ref, and the
    playing flag is set whenever a node emits), then so are the states
    after one and after two invocations, and at most one node emits in
    each. *)
Theorem handlePlayPause_toggles (p : Platform) (events : list Event) (b : AudioBuffer) :
  let w := run (mount p) events in
  audioBuffer (ui w) = Some b ->
  let w1 := handlePlayPause w in
  let w2 := handlePlayPause w1 in
  (if isPlaying (ui w)
   then exists node, audioSourceRef w = Some node /\
                     callsSince w w1 = [SourceStop node] /\
                     sources w1 = alter halt node (sources w)
   else callsSince w w1 = [SourceStart (length (sources w))] /\
        sources w1 = sources w ++ [{| buffer := b; status := Playing |}] /\
        audioSourceRef w1 = Some (length (sources w))) /\
  togglesExactlyOne w /\
  isPlaying (ui w1) = negb (isPlaying (ui w)) /\
  isPlaying (ui w2) = isPlaying (ui w) /\
  (consistent w ->
   consistent w1 /\ consistent w2 /\
   (length (emitting w1) <= 1)%nat /\ (length (emitting w2) <= 1)%nat).
Proof.
  intros w Hbuf w1 w2.
  destruct (invariant_run p events) as (_ & Hctx & Hsrc). fold w in Hctx, Hsrc.
  destruct (invariant_run p (events ++ [PlayPause])) as (_ & _ & Hsrc1).
  rewrite run_snoc in Hsrc1. cbn [step] in Hsrc1. fold w in Hsrc1. fold w1 in Hsrc1.
  assert (Hc : audioContextRef w <> None) by (apply Hctx; congruence).
  clear Hctx.
  assert (Hlast : forall w, consistent w -> (isPlaying (ui w) = true -> audioSourceRef w <> None) ->
            consistent (handlePlayPause w) /\
            (length (emitting (handlePlayPause w)) <= 1)%nat).
  { intros v Hv Hs. split; [| apply consistent_emitting]; now apply consistent_toggle. }
  assert (Hcons : consistent w ->
            consistent w1 /\ consistent w2 /\
            (length (emitting w1) <= 1)%nat /\ (length (emitting w2) <= 1)%nat).
  { intros Hw. destruct (Hlast w Hw Hsrc) as [C1 L1]. fold w1 in C1, L1.
    destruct (Hlast w1 C1 Hsrc1) as [C2 L2]. auto. }
  clear Hlast Hsrc1.
  refine (conj _ (conj _ (conj _ (conj _ Hcons)))); clear Hcons;
    subst w2 w1; unfold togglesExactlyOne; revert Hbuf Hsrc Hc;
    generalize w; clear w; intros w;
    destruct w as [[ch ms input ld img ab playing] ctx ref nodes n cs runs client];
    unfold handlePlayPause, callsSince; cbn; intros -> Hsrc Hc;
    (destruct ctx as [c|]; [| congruence]);
    (destruct playing; [destruct ref as [r|]; [| now specialize (Hsrc eq_refl)] |]);
    cbn; rewrite ?drop_app_length; cbn; rewrite ?drop_app_length; eauto.
Qed.

(** C6, told apart by where the failure is caught: a rejected script call, and an audio payload that
    fails to decode, reach the [catch] block: exactly one generic model
    message is appended, the three loading flags are reset and the run
    ends.  A rejected image-prompt, image or audio call is caught inside
    the service function: no message is appended, the image or the audio
    is left as it was, and the flag of that step is cleared.  Whenever no
    run is in flight all three flags are false. *)
Theorem provider_failures (w : World) (k : nat) (e : error) :
  (inflight w !! k = Some AwaitScript ->
   let w' := step w (ScriptSettled k (Err e)) in
   reportsFailure w w' /\ loading (ui w') = idle /\
   inflight w' = delete k (inflight w)) /\
  (inflight w !! k = Some AwaitAudio ->
   forall data ctx,
     ai w = true -> audioContextRef w = Some ctx ->
     truthy data = true -> decode data = Err e ->
     let w' := step w (AudioSettled k (Ok (Some data))) in
     reportsFailure w w' /\ loading (ui w') = idle /\
     inflight w' = delete k (inflight w)) /\
  (inflight w !! k = Some AwaitImagePrompt ->
   let w' := step w (ImagePromptSettled k (Err e)) in
   messages (ui w') = messages (ui w) /\ imageUrl (ui w') = imageUrl (ui w) /\
   image (loading (ui w')) = false /\
   inflight w' = <[k := AwaitAudio]> (inflight w)) /\
  (inflight w !! k = Some AwaitImage ->
   let w' := step w (ImageSettled k (Err e)) in
   messages (ui w') = messages (ui w) /\ imageUrl (ui w') = imageUrl (ui w) /\
   image (loading (ui w')) = false /\
   inflight w' = <[k := AwaitAudio]> (inflight w)) /\
  (inflight w !! k = Some AwaitAudio ->
   let w' := step w (AudioSettled k (Err e)) in
   messages (ui w') = messages (ui w) /\
   audioBuffer (ui w') = audioBuffer (ui w) /\
   audio (loading (ui w')) = false /\
   inflight w' = delete k (inflight w)) /\
  (forall p events, w = run (mount p) events ->
     inflight w = [] -> loading (ui w) = idle).
Proof.
  repeat match goal with |- _ /\ _ => split end.
  - intros Hk w'. subst w'. cbn [step]. rewrite Hk.
    unfold reportsFailure. destruct w as [[] ]. cbn. auto.
  - intros Hk data ctx Hai Hctx Hdata Hdec w'. subst w'. cbn [step]. rewrite Hk.
    unfold afterAudio, generateMeditationAudio. rewrite Hai. cbn [negb].
    rewrite Hdata, Hctx, Hdata, Hdec.
    unfold reportsFailure. destruct w as [[] ]. cbn. auto.
  - intros Hk w'. subst w'. cbn [step]. rewrite Hk.
    unfold afterImagePrompt, generateImagePrompt.
    destruct w as [[] ]. cbn. destruct ai0; cbn; auto.
  - intros Hk w'. subst w'. cbn [step]. rewrite Hk.
    unfold afterImage, generateMeditationImage.
    destruct w as [[] ]. cbn. destruct ai0; cbn; auto.
  - intros Hk w'. subst w'. cbn [step]. rewrite Hk.
    unfold afterAudio, generateMeditationAudio.
    destruct w as [[] ]. cbn. destruct ai0; cbn; auto.
  - intros p events -> Hnil.
    destruct (invariant_run p events) as ([[_ Hidle] | (a & Ha & _)] & _);
      [exact Hidle | congruence].
Qed.

(** C6 does not hold on a rejected image-prompt call: the cycle ends
    with the welcome, user and script messages only. *)
Lemma image_failure_not_reported :
  ~ reportsFailure (run (mount browser) scriptOnly)
                   (run (mount browser) imagePromptFails) /\
  messages (ui (run (mount browser) imagePromptFails))
  = [welcome; {| role := user; content := "stress relief" |};
     {| role := model; content := "Breathe in." |}] /\
  inflight (run (mount browser) imagePromptFails) = [].
Proof.
  split; [| split]; [| reflexivity | reflexivity].
  unfold reportsFailure. vm_compute. discriminate.
Qed.

Lemma provider_failures_witness :
  reportsFailure (run (mount browser) [Change "stress relief"; Send])
    (step (run (mount browser) [Change "stress relief"; Send])
          (ScriptSettled 0 (Err ProviderCallError))).
Proof.
  exact (proj1 (proj1 (provider_failures
                         (run (mount browser) [Change "stress relief"; Send])
                         0 ProviderCallError) eq_refl)).
Defined.

End Reachability.

(** * The theorems at concrete runs *)

Lemma handlePlayPause_toggles_witness :
  isPlaying (ui (handlePlayPause (run (mount browser) fullCycle))) = true /\
  isPlaying (ui (handlePlayPause (handlePlayPause (run (mount browser) fullCycle))))
  = false.
Proof.
  destruct (handlePlayPause_toggles browser fullCycle _ eq_refl)
    as (_ & _ & Hfirst & Hsecond & _).
  split; [exact Hfirst | exact Hsecond].
Defined.

Lemma send_blocked_while_generating_witness :
  handleSendMessage (run (mount browser) scriptOnly) = run (mount browser) scriptOnly.
Proof.
  destruct (send_blocked_while_generating browser scriptOnly) as (_ & _ & Hblocked).
  exact (proj1 (Hblocked eq_refl)).
Defined.

Lemma audio_context_created_at_startup_witness :
  contextsCreated (run (mount browser) resend) = 1%nat.
Proof.
  destruct (audio_context_created_at_startup browser resend)
    as (_ & Hcreated & _ & _ & Hsame & _).
  rewrite Hsame. exact (proj1 (Hcreated eq_refl)).
Defined.

Lemma handlePlayPause_guard_witness :
  handlePlayPause (mount browser) = mount browser.
Proof.
  exact (proj1 (handlePlayPause_guard (mount browser) (or_intror eq_refl))).
Defined.

Lemma handleSendMessage_leaves_source_playing_witness :
  let w := run (mount browser) (fullCycle ++ [PlayPause; Change "sleep"]) in
  isPlaying (ui (handleSendMessage w)) = false /\
  length (emitting (handleSendMessage w)) = 1%nat.
Proof.
  intros w.
  destruct (handleSendMessage_leaves_source_playing w eq_refl
              ltac:(discriminate) eq_refl)
    as (_ & Hflag & _ & _ & _ & _ & Hemit & _).
  split; [exact Hflag |].
  rewrite Hemit. reflexivity.
Defined.

(** What C10 leads to: after a new request has been sent and answered
    while a node was playing, pressing play starts a second node on top of
    the first. *)
Example overlapping_sources_after_resend :
  length (emitting (run (mount browser) resend)) = 2%nat /\
  isPlaying (ui (run (mount browser) resend)) = true.
Proof. split; reflexivity. Qed.

(** C2 on the code: a first script is played, and while its node emits a
    second request is sent and answered.  [handleSendMessage] has cleared
    the playing flag without stopping the node, so the screen shows the
    play control with the play icon while one node emits.  The press then
    performs exactly one of play and stop, as in every state with the
    control, but it is a play: a second node is started on the new buffer
    while the first still emits, and two playback sessions are active at
    once. *)
Theorem two_sessions_after_resend :
  let w := run (mount browser) answered in
  let w1 := handlePlayPause w in
  playControl (render (ui w)) = Some PlayIcon /\
  dispatch w ClickPlay = w1 /\
  isPlaying (ui w) = false /\
  audioSourceRef w = Some 0%nat /\
  map status (sources w) = [Playing] /\
  togglesExactlyOne w /\
  callsSince w w1 = [SourceStart 1] /\
  isPlaying (ui w1) = true /\
  map status (sources w1) = [Playing; Playing] /\
  length (emitting w1) = 2%nat /\
  run (mount browser) resend = w1.
Proof.
  cbv zeta. unfold togglesExactlyOne.
  repeat apply conj; vm_compute; reflexivity.
Qed.

(** * Further properties of the component *)

Section Input.

(** The three kinds of encodings do not overlap: they differ in the first
    byte. *)
Lemma space_one_byte (a b c : ascii) :
  is_space a = true -> is_space2 a b = false /\ is_space3 a b c = false.
Proof.
  destruct a as [[] [] [] [] [] [] [] []]; cbn; intros H;
    try discriminate H; split; reflexivity.
Qed.

Lemma space_two_bytes (a b c : ascii) :
  is_space2 a b = true -> is_space a = false /\ is_space3 a b c = false.
Proof.
  destruct a as [[] [] [] [] [] [] [] []]; cbn; intros H;
    try discriminate H; split; reflexivity.
Qed.

Lemma all_space_cons (c1 : ascii) (r1 : list ascii) :
  all_space (c1 :: r1)
  = if is_space c1 then all_space r1
    else match r1 with
         | [] => false
         | c2 :: r2 =>
             if is_space2 c1 c2 then all_space r2
             else match r2 with
                  | [] => false
                  | c3 :: r3 => is_space3 c1 c2 c3 && all_space r3
                  end
         end.
Proof.
  cbn [all_space]. destruct (is_space c1) eqn:H1.
  - destruct r1 as [|c2 [|c3 r3]]; cbn [andb orb]; rewrite ?orb_false_r;
      try reflexivity.
    + destruct (space_one_byte c1 c2 c2 H1) as [-> _]. cbn.
      now rewrite orb_false_r.
    + destruct (space_one_byte c1 c2 c3 H1) as [-> ->]. cbn.
      now rewrite orb_false_r.
  - cbn [andb orb]. destruct r1 as [|c2 [|c3 r3]]; try reflexivity.
    + destruct (is_space2 c1 c2); cbn; now rewrite ?orb_false_r.
    + destruct (is_space2 c1 c2) eqn:H2; cbn [andb orb]; [| reflexivity].
      destruct (space_two_bytes c1 c2 c3 H2) as [_ ->]. cbn.
      now rewrite orb_false_r.
Qed.

(** Induction on a list through its proper suffixes. *)
Lemma suffix_ind {A} (P : list A -> Prop) :
  (forall l, (forall k, (length k < length l)%nat -> P k) -> P l) ->
  forall l, P l.
Proof.
  intros Hstep l. remember (length l) as n eqn:Hn. revert l Hn.
  induction n as [n IH] using lt_wf_ind. intros l ->.
  apply Hstep. intros k Hk. now apply (IH (length k)).
Qed.

(** [trim_start] leaves nothing exactly of the texts made of white space. *)
Lemma trim_start_nil (cs : list ascii) :
  trim_start cs = [] <-> all_space cs = true.
Proof.
  induction cs as [cs IH] using suffix_ind.
  destruct cs as [|c1 r1]; [now split |].
  rewrite all_space_cons. cbn [trim_start].
  destruct (is_space c1); [apply IH; cbn; lia |].
  destruct r1 as [|c2 r2]; [now split |].
  destruct (is_space2 c1 c2); [apply IH; cbn; lia |].
  destruct r2 as [|c3 r3]; [now split |].
  destruct (is_space3 c1 c2 c3); [apply IH; cbn; lia |].
  now split.
Qed.

(** What [trim_start] leaves does not start with white space. *)
Lemma trim_start_idempotent (cs : list ascii) :
  trim_start (trim_start cs) = trim_start cs.
Proof.
  induction cs as [cs IH] using suffix_ind.
  destruct cs as [|c1 r1]; [reflexivity |].
  cbn [trim_start].
  destruct (is_space c1) eqn:H1; [apply IH; cbn; lia |].
  destruct r1 as [|c2 r2]; [cbn [trim_start]; now rewrite H1 |].
  destruct (is_space2 c1 c2) eqn:H2; [apply IH; cbn; lia |].
  destruct r2 as [|c3 r3]; [cbn [trim_start]; now rewrite H1, H2 |].
  destruct (is_space3 c1 c2 c3) eqn:H3; [apply IH; cbn; lia |].
  cbn [trim_start]. now rewrite H1, H2, H3.
Qed.

Lemma all_space_app (xs ys : list ascii) :
  all_space xs = true -> all_space ys = true -> all_space (xs ++ ys) = true.
Proof.
  intros Hx Hy. induction xs as [xs IH] using suffix_ind.
  destruct xs as [|c1 r1]; [exact Hy |].
  rewrite all_space_cons in Hx. rewrite <- app_comm_cons, all_space_cons.
  destruct (is_space c1); [apply IH; [cbn; lia | exact Hx] |].
  destruct r1 as [|c2 r2]; [discriminate |].
  rewrite <- app_comm_cons.
  destruct (is_space2 c1 c2); [apply IH; [cbn; lia | exact Hx] |].
  destruct r2 as [|c3 r3]; [discriminate |].
  rewrite <- app_comm_cons.
  apply andb_true_iff in Hx as [-> Hx]. cbn [andb].
  apply IH; [cbn; lia | exact Hx].
Qed.

(** When trimming from the end leaves nothing, the text was white space. *)
Lemma trim_end_nil (rs : list ascii) :
  trim_end rs = [] -> all_space (rev rs) = true.
Proof.
  induction rs as [rs IH] using suffix_ind.
  destruct rs as [|c1 r1]; [reflexivity |].
  cbn [trim_end].
  destruct (is_space c1) eqn:H1.
  { intros H. cbn [rev]. apply all_space_app; [apply IH; [cbn; lia | exact H] |].
    rewrite all_space_cons, H1. reflexivity. }
  destruct r1 as [|c2 r2]; [discriminate |].
  destruct (is_space2 c2 c1) eqn:H2.
  { intros H. cbn [rev]. rewrite <- app_assoc.
    apply all_space_app; [apply IH; [cbn; lia | exact H] |].
    cbn [app]. rewrite all_space_cons.
    destruct (space_two_bytes c2 c1 c1 H2) as [-> _]. now rewrite H2. }
  destruct r2 as [|c3 r3]; [discriminate |].
  destruct (is_space3 c3 c2 c1) eqn:H3; [| discriminate].
  intros H. cbn [rev]. rewrite <- !app_assoc.
  apply all_space_app; [apply IH; [cbn; lia | exact H] |].
  cbn [app]. rewrite all_space_cons.
  destruct (is_space c3) eqn:E1;
    [destruct (space_one_byte c3 c2 c1 E1) as [_ E]; congruence |].
  destruct (is_space2 c3 c2) eqn:E2;
    [destruct (space_two_bytes c3 c2 c1 E2) as [_ E]; congruence |].
  now rewrite H3.
Qed.

Lemma truthy_of_list (cs : list ascii) :
  truthy (string_of_list_ascii cs) = false <-> cs = [].
Proof. destruct cs; cbn; split; congruence. Qed.

(** [trim] leaves nothing exactly of the strings made of white space. *)
Lemma trim_blank (s : string) : truthy (trim s) = false <-> blank s = true.
Proof.
  unfold trim, blank. rewrite truthy_of_list.
  set (cs := list_ascii_of_string s).
  split.
  - intros H. apply (f_equal (@rev ascii)) in H. rewrite rev_involutive in H.
    cbn in H. apply trim_end_nil in H. rewrite rev_involutive in H.
    apply trim_start_nil in H. rewrite trim_start_idempotent in H.
    now apply trim_start_nil.
  - intros H. apply trim_start_nil in H. rewrite H. reflexivity.
Qed.

Lemma trim_not_blank (s : string) : truthy (trim s) = true <-> blank s = false.
Proof.
  pose proof (trim_blank s) as H.
  destruct (truthy (trim s)), (blank s); intuition congruence.
Qed.

(** The white space of [trim] beyond ASCII. *)
Example trim_unicode_white_space :
  trim (ideographicSpace +:+ " calm lake" +:+ noBreakSpace) = "calm lake" /\
  blank (noBreakSpace +:+ " " +:+ ideographicSpace) = true /\
  blank (ideographicSpace +:+ "a") = false.
Proof. repeat apply conj; vm_compute; reflexivity. Qed.

(** X1: [handleSendMessage] leaves the state as it is exactly when the
    input is blank (empty, or made only of the white space that
    [String.prototype.trim] strips: TAB, LF, VT, FF, CR, SPACE, U+00A0,
    U+1680, U+2000 to U+200A, U+2028, U+2029, U+202F, U+205F, U+3000 and
    U+FEFF), or there is no chat session, or a loading flag is set; in
    every other state it records a call, so the state changes. *)
Theorem handleSendMessage_idle_iff (w : World) :
  handleSendMessage w = w <->
  blank (userInput (ui w)) = true \/ chat (ui w) = None \/
  isGenerating (loading (ui w)) = true.
Proof.
  unfold handleSendMessage.
  destruct (truthy (trim (userInput (ui w)))) eqn:Htrim.
  - apply trim_not_blank in Htrim. rewrite Htrim.
    destruct (chat (ui w)) as [c|] eqn:Hchat; cbn [isNull negb orb];
      [| split; auto].
    destruct (isGenerating (loading (ui w))) eqn:Hgen; [split; auto |].
    split.
    + intros Hsame. apply (f_equal (fun v => length (calls v))) in Hsame.
      cbn in Hsame. rewrite length_app in Hsame. cbn in Hsame. lia.
    + intros [H | [H | H]]; discriminate.
  - apply trim_blank in Htrim. cbn. split; auto.
Qed.

End Input.

(** Split a step into the paths the handlers can take. *)
Ltac open_step :=
  unfold step, handleSendMessage, handlePlayPause, onended, afterScript,
    afterImagePrompt, afterImage, afterAudio, afterDecode;
  cbn [ui userInput chat loading audioContextRef audioBuffer isPlaying
       audioSourceRef sources inflight ai];
  repeat match goal with
         | |- context [match ?x with _ => _ end] =>
             lazymatch x with
             | context [match _ with _ => _ end] => fail
             | _ => destruct x eqn:?
             end
         end.

Ltac step_cases w e :=
  destruct w as [[ch ms input ld img ab playing] ctx ref nodes n cs runs client];
  destruct e as [value | | | node | k response | k response | k response
                 | k response | k];
  open_step.

(** The same over a state in which at most one run is suspended, as the
    invariant says. *)
Ltac reach_cases w e Hrun :=
  let a := fresh "a" in
  let Hd := fresh "Hd" in
  destruct w as [[ch ms input ld img ab playing] ctx ref nodes n cs runs client];
  cbn [ui userInput chat loading audioContextRef audioBuffer isPlaying
       audioSourceRef sources inflight ai messages imageUrl calls
       contextsCreated] in *;
  destruct Hrun as [[-> ->] | (a & -> & -> & Hd)];
  destruct e as [value | | | node | k response | k response | k response
                 | k response | k];
  unfold step; cbn [inflight lookup list_lookup];
  open_step.

(** A lookup in a list of at most one run finds that run, at index 0. *)
Ltac no_lookup :=
  repeat match goal with
         | H : [] !! _ = Some _ |- _ => rewrite lookup_nil in H; discriminate H
         | H : [_] !! ?k = Some _ |- _ =>
             destruct k; cbn in H;
             [simplify_eq | try rewrite lookup_nil in H; discriminate H]
         end;
  cbn in *.

(** A send is not let through while a run is suspended. *)
Ltac no_second_run :=
  try match goal with
      | H : _ || isGenerating (flagsAt _) = false |- _ =>
          rewrite isGenerating_flagsAt, orb_true_r in H; discriminate H
      end.

Section Frames.

(** X4: the transcript only grows, by at most one message per event, and
    so do the bubbles on the screen: what was shown stays shown, in the
    same order. *)
Theorem messages_append_only (w : World) (events : list Event) :
  exists tail,
    messages (ui (run w events)) = messages (ui w) ++ tail /\
    (length tail <= length events)%nat /\
    bubbles (render (ui (run w events)))
    = bubbles (render (ui w)) ++ map ChatBubble tail.
Proof.
  assert (Hstep : forall v e, exists tail,
             messages (ui (step v e)) = messages (ui v) ++ tail /\
             (length tail <= 1)%nat).
  { intros v e. step_cases v e; cbn;
      solve [ exists []; rewrite app_nil_r; split; [reflexivity | cbn; lia]
            | eexists [_]; split; [reflexivity | cbn; lia] ]. }
  assert (Hrun : exists tail,
             messages (ui (run w events)) = messages (ui w) ++ tail /\
             (length tail <= length events)%nat).
  { revert w. induction events as [|e events IH]; intros w.
    - exists []. rewrite app_nil_r. split; [reflexivity | cbn; lia].
    - change (run w (e :: events)) with (run (step w e) events).
      destruct (Hstep w e) as (t1 & H1 & L1).
      destruct (IH (step w e)) as (t2 & H2 & L2).
      exists (t1 ++ t2). rewrite H2, H1, <- app_assoc, length_app.
      split; [reflexivity | cbn; lia]. }
  destruct Hrun as (tail & Hm & Hl). exists tail.
  split; [exact Hm |]. split; [exact Hl |].
  unfold render. cbn [bubbles]. rewrite Hm. apply map_app.
Qed.

(** X9: the image shown changes only when an image call returns a
    non-empty image, and then to the data URL of that image; in particular
    a new request keeps the previous image, and a failed image step leaves
    it too. *)
Theorem imageUrl_changes_with_image (w : World) (e : Event) :
  imageUrl (ui (step w e)) = imageUrl (ui w) \/
  exists k imageData more,
    e = ImageSettled k (Ok (imageData :: more)) /\
    inflight w !! k = Some AwaitImage /\
    truthy imageData = true /\
    imageUrl (ui (step w e)) = dataUrl imageData.
Proof.
  step_cases w e; cbn; try (left; reflexivity).
  right.
  match goal with
  | H : generateMeditationImage _ _ = Some _ |- _ =>
      unfold generateMeditationImage in H;
      destruct client; cbn in H; [| discriminate];
      destruct response as [[|first more]|]; try discriminate;
      injection H as <-
  end.
  eauto 10.
Qed.

End Frames.

Section Generation.

(** While a run is suspended there is no decoded buffer and the playing
    flag is down. *)
Lemma player_hidden_step (w : World) (e : Event) :
  invariant w ->
  (inflight w <> [] -> audioBuffer (ui w) = None /\ isPlaying (ui w) = false) ->
  inflight (step w e) <> [] ->
  audioBuffer (ui (step w e)) = None /\ isPlaying (ui (step w e)) = false.
Proof.
  intros (Hrun & _ & _) Hq.
  reach_cases w e Hrun; no_lookup; intros Hne;
    try congruence; auto;
    destruct Hq as [Hb Hp]; try congruence; try discriminate; subst; auto.
Qed.

Lemma player_hidden (p : Platform) (events : list Event) :
  let w := run (mount p) events in
  inflight w <> [] -> audioBuffer (ui w) = None /\ isPlaying (ui w) = false.
Proof.
  apply (run_ind (fun w => invariant w /\
           (inflight w <> [] ->
            audioBuffer (ui w) = None /\ isPlaying (ui w) = false))).
  - split; [apply invariant_mount |].
    destruct p as [[] [] []]; cbn; congruence.
  - intros w e [Hinv Hq]. split; [now apply invariant_step |].
    now apply player_hidden_step.
Qed.

(** X7: while a generation cycle is running (a loading flag is set) there
    is no audio buffer and the playing flag is down: the play control is
    not on the screen, and [handlePlayPause] does nothing. *)
Theorem generating_hides_player (p : Platform) (events : list Event) :
  let w := run (mount p) events in
  isGenerating (loading (ui w)) = true ->
  audioBuffer (ui w) = None /\ isPlaying (ui w) = false /\
  playControl (render (ui w)) = None /\
  spinner (render (ui w)) = true /\
  handlePlayPause w = w.
Proof.
  intros w Hgen.
  assert (Hne : inflight w <> []).
  { destruct (invariant_run p events) as ([[_ Hidle] | (a & Ha & _)] & _);
      fold w in Hidle || fold w in Ha; [| congruence].
    rewrite Hidle in Hgen. discriminate. }
  destruct (player_hidden p events Hne) as [Hbuf Hplay]. fold w in Hbuf, Hplay.
  repeat split; try assumption.
  - unfold render. cbn. now rewrite Hbuf.
  - unfold handlePlayPause. rewrite Hbuf.
    now destruct (audioContextRef w).
Qed.

End Generation.

Section StartUp.

Lemma inert_step (w : World) (e : Event) : inert w -> inert (step w e).
Proof.
  unfold inert. intros (Hchat & Hmsg & Hcalls & Hruns & Hload & Himg & Hbuf & Hplay & Hsrc & Hctx).
  destruct w as [[ch ms input ld img ab playing] ctx ref nodes n cs runs client].
  cbn in *. subst.
  destruct e as [value | | | node | k response | k response | k response
                 | k response | k];
    unfold step, handleSendMessage, handlePlayPause, onended;
    cbn [ui userInput chat loading audioContextRef audioBuffer isPlaying
         audioSourceRef sources inflight ai isNull];
    rewrite ?lookup_nil, ?orb_true_r; cbn; auto 15.
Qed.

(** X2: when [new GoogleGenAI] or [ai.chats.create] throws at start-up,
    the component shows the welcome message and stays inert whatever
    happens: there is no chat session, so no send passes the guard; no call
    is ever made, no message is added, nothing is loading and nothing can
    be played. *)
Theorem failed_startup_is_inert (p : Platform) (events : list Event) :
  genAIConstructs p && chatCreates p = false ->
  let w := run (mount p) events in
  chat (ui w) = None /\ messages (ui w) = [welcome] /\ calls w = [] /\
  inflight w = [] /\ loading (ui w) = idle /\ imageUrl (ui w) = "" /\
  audioBuffer (ui w) = None /\ isPlaying (ui w) = false /\
  sources w = [] /\ audioContextRef w = None.
Proof.
  intros Hfail w. subst w.
  apply (run_ind inert); [| apply inert_step].
  unfold inert. destruct p as [[] [] ?]; cbn in *; try discriminate; auto 15.
Qed.

(** Without an audio context no buffer is decoded and no node created. *)
Lemma silent_step (w : World) (e : Event) :
  invariant w ->
  audioContextRef w = None /\ audioBuffer (ui w) = None /\
  isPlaying (ui w) = false /\ sources w = [] ->
  audioContextRef (step w e) = None /\ audioBuffer (ui (step w e)) = None /\
  isPlaying (ui (step w e)) = false /\ sources (step w e) = [].
Proof.
  intros (Hrun & _ & _) (Hctx & Hbuf & Hplay & Hsrc).
  reach_cases w e Hrun; no_lookup; subst; auto; try discriminate.
  all: try (exfalso; now apply (Hd _ eq_refl)).
Qed.

(** X3: when the audio context could not be constructed, requests are
    still answered, but the audio is dropped: in every reachable state
    there is no audio buffer, no source node and no play control, and the
    audio flag is cleared all the same when the audio call settles. *)
Theorem no_context_no_playback (p : Platform) (events : list Event) :
  audioContextRef (mount p) = None ->
  let w := run (mount p) events in
  audioBuffer (ui w) = None /\ sources w = [] /\ isPlaying (ui w) = false /\
  playControl (render (ui w)) = None /\
  (forall response, inflight w = [AwaitAudio] ->
     let w' := step w (AudioSettled 0 response) in
     inflight w' = [] /\ loading (ui w') = idle /\ audioBuffer (ui w') = None /\
     messages (ui w') = messages (ui w)).
Proof.
  intros Hnone w.
  assert (H : invariant w /\ audioContextRef w = None /\ audioBuffer (ui w) = None /\
              isPlaying (ui w) = false /\ sources w = []).
  { subst w.
    apply (run_ind (fun w => invariant w /\ audioContextRef w = None /\
                     audioBuffer (ui w) = None /\ isPlaying (ui w) = false /\
                     sources w = [])).
    - split; [apply invariant_mount |]. split; [exact Hnone |].
      destruct p as [[] [] []]; cbn; auto.
    - intros v e [Hinv Hq]. split; [now apply invariant_step |].
      now apply silent_step. }
  destruct H as (Hinv & Hctx & Hbuf & Hplay & Hsrc).
  split; [exact Hbuf |]. split; [exact Hsrc |]. split; [exact Hplay |].
  split; [unfold render; cbn; now rewrite Hbuf |].
  intros response Hrun w'. subst w'.
  destruct Hinv as ([[Hnil _] | (a & Ha & Hflags & _)] & _); [congruence |].
  rewrite Hrun in Ha. injection Ha as <-.
  generalize dependent w. intros w.
  destruct w as [[ch ms input ld img ab playing] ctx ref nodes n cs runs client].
  cbn. intros; subst. unfold afterAudio. cbn.
  destruct (generateMeditationAudio client response); cbn; auto.
Qed.

End StartUp.

Section Requests.

Lemma texts_step (w : World) (e : Event) :
  exists sent,
    userTexts (step w e) = userTexts w ++ sent /\
    sentTexts (step w e) = sentTexts w ++ sent.
Proof.
  unfold userTexts, sentTexts.
  step_cases w e; cbn;
    rewrite ?List.filter_app, ?map_app, ?omap_app; cbn;
    rewrite ?app_nil_r;
    solve [ exists []; now rewrite !app_nil_r | eexists [_]; split; reflexivity ].
Qed.

(** X5: the texts handed to [chat.sendMessage] are the texts of the user
    bubbles, in the same order and once each: every user message is sent,
    none is sent twice, and nothing is sent that is not shown. *)
Theorem every_user_message_sent_once (p : Platform) (events : list Event) :
  sentTexts (run (mount p) events) = userTexts (run (mount p) events).
Proof.
  apply (run_ind (fun w => sentTexts w = userTexts w)).
  - destruct p as [[] [] []]; reflexivity.
  - intros w e Hw. destruct (texts_step w e) as (sent & Hu & Hs).
    rewrite Hu, Hs, Hw. reflexivity.
Qed.

Lemma accounted_step (w : World) (e : Event) :
  invariant w -> accounted w -> accounted (step w e).
Proof.
  unfold accounted, promptRequests, audioRequests, imageRequests, sentTexts.
  intros (Hrun & _ & _) (Heq & Hprompt & Himage).
  reach_cases w e Hrun; no_second_run; no_lookup;
    rewrite ?omap_app, ?length_app in *; cbn in *;
    rewrite ?app_nil_r in *;
    repeat split; try congruence; try lia.
Qed.

(** X6: the image prompt and the narration are requested together and for
    the same script text; there are never more such requests than messages
    sent, nor more image requests than image prompts requested: a script
    is asked for before anything is derived from it, and no step is
    repeated. *)
Theorem requests_follow_the_script (p : Platform) (events : list Event) :
  let w := run (mount p) events in
  promptRequests w = audioRequests w /\
  (length (promptRequests w) <= length (sentTexts w))%nat /\
  (length (imageRequests w) <= length (promptRequests w))%nat.
Proof.
  intros w.
  assert (H : invariant w /\ accounted w).
  { subst w. apply (run_ind (fun w => invariant w /\ accounted w)).
    - split; [apply invariant_mount |].
      destruct p as [[] [] []]; repeat split; cbn; lia.
    - intros v e [Hinv Hacc]. split; [now apply invariant_step |].
      now apply accounted_step. }
  destruct H as (_ & Heq & Hprompt & Himage).
  split; [exact Heq |]. split; lia.
Qed.

End Requests.

Section Screen.

(** X8: the disabled attributes and the conditional rendering block
    nothing that the handlers would not block themselves: pressing Enter in
    the input and clicking the send button both do what
    [handleSendMessage] does in that state, and clicking the play control
    does what [handlePlayPause] does; any other key does nothing, and text
    can be typed exactly while nothing is being generated. *)
Theorem dispatch_agrees_with_handlers (w : World) :
  dispatch w (KeyDown "Enter") = handleSendMessage w /\
  dispatch w ClickSend = handleSendMessage w /\
  dispatch w ClickPlay = handlePlayPause w /\
  (forall key, key <> "Enter"%string -> dispatch w (KeyDown key) = w) /\
  (forall value,
     dispatch w (TypeText value)
     = if isGenerating (loading (ui w)) then w else setUserInput value w).
Proof.
  unfold dispatch, render. cbn [inputDisabled sendDisabled playControl].
  repeat split.
  - destruct (isGenerating (loading (ui w))) eqn:Hgen; [| reflexivity].
    unfold handleSendMessage. now rewrite Hgen, orb_true_r.
  - destruct (isGenerating (loading (ui w)) || negb (truthy (trim (userInput (ui w)))))
      eqn:Hoff; [| reflexivity].
    unfold handleSendMessage.
    apply orb_true_iff in Hoff as [-> | ->]; [now rewrite orb_true_r | reflexivity].
  - unfold handlePlayPause.
    destruct (audioBuffer (ui w)); [reflexivity |].
    now destruct (audioContextRef w).
  - intros key Hkey. apply String.eqb_neq in Hkey. rewrite Hkey. cbn.
    now destruct (isGenerating (loading (ui w))).
Qed.

Lemma ChatBubble_injective (m1 m2 : ChatMessage) :
  ChatBubble m1 = ChatBubble m2 -> m1 = m2.
Proof.
  destruct m1 as [[] c1], m2 as [[] c2]; unfold ChatBubble; cbn;
    intros H; injection H; intros; subst; try reflexivity; discriminate.
Qed.

(** X14: a bubble tells the message it was made from: the classes differ
    between the two roles and the text is the content, so two transcripts
    that render to the same bubbles are the same transcript. *)
Theorem bubbles_determine_messages (c1 c2 : Component) :
  bubbles (render c1) = bubbles (render c2) -> messages c1 = messages c2.
Proof.
  unfold render. cbn [bubbles].
  generalize (messages c1) (messages c2). clear.
  induction l as [|m l IH]; intros [|m' l'] H; try discriminate; [reflexivity |].
  cbn [map] in H.
  assert (Hm : ChatBubble m = ChatBubble m') by congruence.
  assert (Hl : map ChatBubble l = map ChatBubble l') by congruence.
  f_equal; [now apply ChatBubble_injective | now apply IH].
Qed.

End Screen.

(** Carry out the state updates of a handler. *)
Ltac update :=
  cbv [setInflight call setIsPlaying setAudioBuffer setLoading setUserInput
       setMessages setUi setImageUrl setSources setAudioSourceRef
       afterScript imageDone audioDone afterDecode stop start
       ui audioContextRef audioSourceRef sources contextsCreated calls
       inflight ai chat messages userInput loading imageUrl audioBuffer
       isPlaying script image audio];
  cbn [insert list_insert delete list_delete lookup list_lookup app].

Section Cycle.

(** X13: when the image-prompt call returns only white space (that of
    [String.prototype.trim], ASCII or not), the prompt is empty after
    [trim] and the image step is skipped: no image is requested, the image
    flag is cleared and the run goes on to the audio.  A prompt with
    anything else in it is requested, trimmed. *)
Theorem blank_prompt_skips_image (w : World) (k : nat) (promptText : string) :
  inflight w !! k = Some AwaitImagePrompt ->
  ai w = true ->
  let w' := step w (ImagePromptSettled k (Ok promptText)) in
  messages (ui w') = messages (ui w) /\
  imageUrl (ui w') = imageUrl (ui w) /\
  if blank promptText
  then calls w' = calls w /\
       image (loading (ui w')) = false /\
       inflight w' = <[k := AwaitAudio]> (inflight w)
  else calls w' = calls w ++ [GenerateMeditationImage (trim promptText)] /\
       loading (ui w') = loading (ui w) /\
       inflight w' = <[k := AwaitImage]> (inflight w).
Proof.
  intros Hk Hai w'. subst w'. cbn [step]. rewrite Hk.
  unfold afterImagePrompt, generateImagePrompt. rewrite Hai. cbn [negb].
  destruct (blank promptText) eqn:Hblank.
  - apply trim_blank in Hblank. rewrite Hblank.
    destruct w as [[] ]. cbn. auto.
  - apply trim_not_blank in Hblank. rewrite Hblank.
    destruct w as [[] ]. cbn. auto.
Qed.

(** X15: a generation cycle in which every call succeeds.  From a state
    with a chat session, an audio context and nothing in flight, a
    non-blank input sent and answered by a script, a prompt, an image and
    a decodable audio payload ends with the user message and the script
    appended in that order, the input emptied, the image shown as a data
    URL, the decoded buffer stored at 24000 Hz on one channel, nothing
    loading, nothing in flight and the playing flag down; the four calls
    were made in order, and the source nodes were not touched. *)
Theorem successful_cycle (w : World) (ctx : AudioContext)
    (scriptText prompt imageData audioData : string) (more : list string)
    (decoded : list byte) :
  blank (userInput (ui w)) = false ->
  chat (ui w) <> None ->
  inflight w = [] ->
  isGenerating (loading (ui w)) = false ->
  ai w = true ->
  audioContextRef w = Some ctx ->
  blank prompt = false ->
  truthy imageData = true ->
  truthy audioData = true ->
  decode audioData = Ok decoded ->
  let w' := run w (cycle scriptText prompt imageData audioData more) in
  messages (ui w')
  = messages (ui w) ++ [{| role := user; content := userInput (ui w) |};
                        {| role := model; content := scriptText |}] /\
  userInput (ui w') = ""%string /\
  imageUrl (ui w') = dataUrl imageData /\
  audioBuffer (ui w') = Some (decodeAudioData decoded ctx 24000 1) /\
  loading (ui w') = idle /\
  inflight w' = [] /\
  isPlaying (ui w') = false /\
  calls w' = calls w ++ [SendMessage (userInput (ui w));
                         GenerateImagePrompt scriptText;
                         GenerateMeditationAudio scriptText;
                         GenerateMeditationImage (trim prompt)] /\
  sources w' = sources w /\ audioSourceRef w' = audioSourceRef w.
Proof.
  intros Hinput Hchat Hruns Hidle Hai Hctx Hprompt Himage Haudio Hdecode w'.
  subst w'.
  apply trim_not_blank in Hinput. apply trim_not_blank in Hprompt.
  destruct w as [[ch ms input ld img ab playing] c ref nodes n cs runs client].
  cbn [ui userInput chat loading inflight ai audioContextRef]
    in Hinput, Hchat, Hruns, Hidle, Hai, Hctx.
  subst.
  destruct ch as [session|]; [| congruence].
  set (w0 := {| ui := {| chat := Some session; messages := ms;
                          userInput := input; loading := ld; imageUrl := img;
                          audioBuffer := ab; isPlaying := playing |};
                 audioContextRef := Some ctx; audioSourceRef := ref;
                 sources := nodes; contextsCreated := n; calls := cs;
                 inflight := []; ai := true |}).
  eassert (H1 : step w0 Send = _).
  { subst w0. unfold step, handleSendMessage.
    cbn [ui userInput chat loading isNull]. rewrite Hinput, Hidle.
    cbn [negb orb]. update. reflexivity. }
  eassert (H2 : step (step w0 Send) (ScriptSettled 0 (Ok scriptText)) = _).
  { rewrite H1. unfold step. update. reflexivity. }
  eassert (H3 : step (step (step w0 Send) (ScriptSettled 0 (Ok scriptText)))
                     (ImagePromptSettled 0 (Ok prompt)) = _).
  { rewrite H2. unfold step. update.
    unfold afterImagePrompt, generateImagePrompt.
    repeat progress (update; cbn [negb]; rewrite ?Hprompt).
    reflexivity. }
  eassert (H4 : step (step (step (step w0 Send) (ScriptSettled 0 (Ok scriptText)))
                           (ImagePromptSettled 0 (Ok prompt)))
                     (ImageSettled 0 (Ok (imageData :: more))) = _).
  { rewrite H3. unfold step. update.
    unfold afterImage, generateMeditationImage.
    repeat progress (update; cbn [negb]; rewrite ?Himage).
    reflexivity. }
  eassert (H5 : step (step (step (step (step w0 Send)
                                       (ScriptSettled 0 (Ok scriptText)))
                                 (ImagePromptSettled 0 (Ok prompt)))
                           (ImageSettled 0 (Ok (imageData :: more))))
                     (AudioSettled 0 (Ok (Some audioData))) = _).
  { rewrite H4. unfold step. update.
    unfold afterAudio, generateMeditationAudio.
    repeat progress (update; cbn [negb]; rewrite ?Haudio, ?Hdecode).
    reflexivity. }
  unfold cycle, run. cbn [fold_left]. rewrite H5.
  unfold step. update. unfold dataUrl.
  rewrite <- !app_assoc. repeat split.
Qed.

(** X16: no settled promise sends a run back: whichever way the promise a
    run awaits settles, the run ends or moves to a later stage, so it ends
    after at most five settled promises. *)
Theorem every_settlement_advances (w : World) (a : Await) (e : Event) :
  inflight w = [a] ->
  settles a e = true ->
  inflight (step w e) = [] \/
  exists a', inflight (step w e) = [a'] /\ (remaining a' < remaining a)%nat.
Proof.
  intros Hruns Hsettles.
  destruct w as [[ch ms input ld img ab playing] c ref nodes n cs runs client].
  cbn in Hruns. subst runs.
  destruct a, e as [| | | | [|k] response | [|k] response | [|k] response
                    | [|k] response | [|k]];
    try discriminate; cbn [step inflight lookup list_lookup];
    open_step; cbn; try (left; reflexivity);
    right; eexists; (split; [reflexivity | cbn; lia]).
Qed.

End Cycle.

Section Playback.

Lemma allTuned_step (w : World) (e : Event) :
  invariant w -> allTuned w -> allTuned (step w e).
Proof.
  unfold allTuned, tuned.
  intros (Hrun & _ & _) (Hctx & Hbuf & Hsrc & Hdec & Hsome).
  reach_cases w e Hrun; no_second_run; no_lookup;
    repeat match goal with |- _ /\ _ => split end;
    try assumption; try congruence; try discriminate;
    try (intros; simplify_eq; eauto; fail).
  all: try (apply Forall_alter; [assumption |];
            intros x _ Hx; unfold halt; destruct (status x); exact Hx).
  all: try (apply Forall_app; split; [assumption |];
            constructor; [cbn; now apply Hbuf | constructor]).
  all: try (apply Forall_insert; [assumption |]; cbn;
            match goal with
            | Hall : Forall _ ?l, H : ?l !! _ = Some _ |- _ =>
                exact (Forall_lookup_1 _ _ _ _ Hall H)
            end).
  all: try (intros _; apply Hsome; intros ->;
            match goal with
            | H : [] !! _ = Some _ |- _ => rewrite lookup_nil in H; discriminate H
            end).
Qed.

(** X10: every buffer the component stores, and every buffer a source
    node plays, was made at 24000 Hz with one channel, and the audio
    context it is played on exists and runs at that same rate. *)
Theorem buffers_match_the_context (p : Platform) (events : list Event)
    (b : AudioBuffer) :
  let w := run (mount p) events in
  audioBuffer (ui w) = Some b \/
  (exists node n, sources w !! node = Some n /\ buffer n = b) ->
  sampleRate b = 24000 /\ numberOfChannels b = 1%nat /\
  exists c, audioContextRef w = Some c /\ contextSampleRate c = sampleRate b.
Proof.
  intros w Hb.
  assert (H : invariant w /\ allTuned w).
  { subst w. apply (run_ind (fun w => invariant w /\ allTuned w)).
    - split; [apply invariant_mount |].
      unfold allTuned. destruct p as [[] [] []]; cbn;
        repeat split; try congruence; try discriminate; try constructor;
        intros; simplify_eq; reflexivity.
    - intros v e [Hinv Ht]. split; [now apply invariant_step |].
      now apply allTuned_step. }
  destruct H as ((_ & Hctx & _) & Hrate & Hbuf & Hsrc & _ & Hsome).
  assert (Htuned : tuned b /\ audioContextRef w <> None).
  { destruct Hb as [Hb | (node & n & Hnode & <-)].
    - split; [now apply Hbuf | apply Hctx; congruence].
    - split; [exact (Forall_lookup_1 _ _ _ _ Hsrc Hnode) |].
      apply Hsome. intros Hnil. rewrite Hnil, lookup_nil in Hnode. discriminate. }
  destruct Htuned as [[Hr Hc] Hsomectx].
  split; [exact Hr |]. split; [exact Hc |].
  destruct (audioContextRef w) as [c|] eqn:Hcx; [| congruence].
  exists c. split; [reflexivity |]. rewrite Hr. now apply Hrate.
Qed.

Lemma quiet_silent (w : World) (node : nat) (n : AudioBufferSourceNode) :
  quiet w = true -> sources w !! node = Some n -> status n <> Playing.
Proof.
  unfold quiet. intros Hq Hn Hs.
  rewrite forallb_forall in Hq.
  specialize (Hq n ltac:(apply list_elem_of_In, list_elem_of_lookup; eauto)).
  unfold emits in Hq. rewrite Hs in Hq. discriminate.
Qed.

(** A change of the input and a settled promise leave the player as it
    is. *)
Lemma player_frame (w : World) (e : Event) :
  match e with
  | Send | PlayPause | Ended _ => False
  | _ => True
  end ->
  sources (step w e) = sources w /\
  audioSourceRef (step w e) = audioSourceRef w /\
  isPlaying (ui (step w e)) = isPlaying (ui w).
Proof.
  intros He. step_cases w e; try contradiction; cbn; auto.
Qed.

Lemma truthful_frame (w : World) (e : Event) :
  match e with
  | Send | PlayPause | Ended _ => False
  | _ => True
  end ->
  truthful w -> truthful (step w e).
Proof.
  intros He Ht. destruct (player_frame w e He) as (Hs & Hr & Hp).
  unfold truthful, consistent in *. rewrite Hs, Hr, Hp. exact Ht.
Qed.

Lemma truthful_step (w : World) (e : Event) :
  invariant w -> truthful w -> orderly w e = true -> truthful (step w e).
Proof.
  intros (_ & _ & Href) [Hc Hup] Hord.
  destruct e as [value | | | node | k response | k response | k response
                 | k response | k].
  - now apply (truthful_frame w (Change value)).
  - cbn [step]. unfold handleSendMessage.
    destruct (negb (truthy (trim (userInput (ui w)))) || isNull (chat (ui w))
              || isGenerating (loading (ui w))); [exact (conj Hc Hup) |].
    cbn [orderly] in Hord. split.
    + intros node n Hn Hs. exfalso.
      apply (quiet_silent w node n Hord); [| exact Hs].
      destruct w as [[] ]. exact Hn.
    + destruct w as [[] ]. cbn. discriminate.
  - cbn [step]. split; [now apply consistent_toggle |].
    clear Hord. revert Hc Hup Href.
    destruct w as [[ch ms input ld img ab playing] ctx ref nodes n cs runs client].
    unfold handlePlayPause, consistent. cbn. intros Hc Hup Href.
    destruct ctx as [c|], ab as [b|]; try exact Hup.
    destruct playing; cbn; [destruct ref; cbn; discriminate |].
    intros _. eexists _, _. split; [reflexivity |].
    split; [rewrite lookup_app_r by lia; rewrite Nat.sub_diag; reflexivity
           | reflexivity].
  - cbn [step]. unfold onended.
    destruct (sources w !! node) as [nd|] eqn:Hnode; [| exact (conj Hc Hup)].
    destruct (status nd) eqn:Hstatus; try exact (conj Hc Hup).
    + (* the node that ends was emitting *)
      destruct (Hc node nd Hnode Hstatus) as [_ Hr].
      split; [| destruct w as [[] ]; cbn; discriminate].
      intros i x Hi Hx. exfalso.
      destruct w as [[ch ms input ld img ab playing] ctx ref nodes n cs runs client].
      cbn in *. destruct (decide (i = node)) as [-> | Hne].
      * rewrite list_lookup_insert_eq in Hi by (eapply lookup_lt_Some; eauto).
        injection Hi as <-. discriminate.
      * rewrite list_lookup_insert_ne in Hi by congruence.
        destruct (Hc i x Hi Hx) as [_ Hr']. cbn in Hr'. congruence.
    + (* the node that ends had been stopped *)
      cbn [orderly] in Hord. rewrite Hnode in Hord. unfold emits in Hord.
      rewrite Hstatus, orb_false_r in Hord.
      split; [| destruct w as [[] ]; cbn; discriminate].
      intros i x Hi Hx. exfalso.
      destruct (decide (i = node)) as [-> | Hne].
      * destruct w as [[] ]. cbn in *.
        rewrite list_lookup_insert_eq in Hi by (eapply lookup_lt_Some; eauto).
        injection Hi as <-. discriminate.
      * apply (quiet_silent w i x Hord); [| exact Hx].
        destruct w as [[] ]. cbn in *.
        now rewrite list_lookup_insert_ne in Hi by congruence.
  - now apply (truthful_frame w (ScriptSettled k response)).
  - now apply (truthful_frame w (ImagePromptSettled k response)).
  - now apply (truthful_frame w (ImageSettled k response)).
  - now apply (truthful_frame w (AudioSettled k response)).
  - now apply (truthful_frame w (DecodeSettled k)).
Qed.

Lemma truthful_run (w : World) (events : list Event) :
  invariant w -> truthful w -> orderlyRun w events = true ->
  truthful (run w events).
Proof.
  revert w. induction events as [|e events IH]; intros w Hinv Ht Hord;
    [exact Ht |].
  cbn [orderlyRun] in Hord. apply andb_true_iff in Hord as [He Hrest].
  change (run w (e :: events)) with (run (step w e) events).
  apply IH; [now apply invariant_step | now apply truthful_step | exact Hrest].
Qed.

(** X11: as long as no request is sent while a node is emitting, and no
    [ended] event of a stopped node arrives while another node is emitting,
    the playing flag tells the truth: at most one node emits at any time,
    one emits exactly when the flag is up, and it is the node held in the
    ref. *)
Theorem one_source_at_a_time (p : Platform) (events : list Event) :
  orderlyRun (mount p) events = true ->
  let w := run (mount p) events in
  (length (emitting w) <= 1)%nat /\
  (isPlaying (ui w) = true <-> emitting w <> []) /\
  (forall node n, sources w !! node = Some n -> status n = Playing ->
     audioSourceRef w = Some node).
Proof.
  intros Hord w.
  assert (Ht : truthful w).
  { subst w. apply truthful_run; [apply invariant_mount | | exact Hord].
    split.
    - intros node n Hn. destruct p as [[] [] []]; discriminate.
    - destruct p as [[] [] []]; discriminate. }
  destruct Ht as [Hc Hup].
  split; [now apply consistent_emitting |]. split.
  - split.
    + intros Hplay. destruct (Hup Hplay) as (node & n & _ & Hn & Hs).
      intros Hnone.
      assert (Hin : In n (emitting w)).
      { unfold emitting. apply filter_In. split.
        - apply list_elem_of_In, list_elem_of_lookup. eauto.
        - unfold emits. now rewrite Hs. }
      rewrite Hnone in Hin. exact Hin.
    + intros Hne. destruct (emitting w) as [|n rest] eqn:Hem; [congruence |].
      assert (Hin : In n (emitting w)) by (rewrite Hem; now left).
      unfold emitting in Hin. apply filter_In in Hin as [Hin Hs].
      apply list_elem_of_In, list_elem_of_lookup in Hin as [node Hn].
      unfold emits in Hs. destruct (status n) eqn:Hst; try discriminate.
      now destruct (Hc node n Hn Hst).
  - intros node n Hn Hs. now destruct (Hc node n Hn Hs).
Qed.

End Playback.

Section LateEnded.

(** X12: the [ended] handler clears the playing flag whichever node has
    ended.  When a playing node is stopped and play is pressed again
    before the [ended] event of the stopped node is dispatched, that event
    clears the flag while the new node is emitting: the control shows
    "play" again, and pressing it starts a second node on top of the
    first. *)
Theorem late_ended_event (w : World) (ctx : AudioContext) (b : AudioBuffer)
    (node : nat) (n : AudioBufferSourceNode) :
  audioContextRef w = Some ctx ->
  audioBuffer (ui w) = Some b ->
  isPlaying (ui w) = true ->
  audioSourceRef w = Some node ->
  sources w !! node = Some n ->
  status n = Playing ->
  let fresh := length (sources w) in
  let w' := run w [PlayPause; PlayPause; Ended node] in
  isPlaying (ui w') = false /\
  playControl (render (ui w')) = Some PlayIcon /\
  sources w' !! node = Some {| buffer := buffer n; status := Finished |} /\
  sources w' !! fresh = Some {| buffer := b; status := Playing |} /\
  let w'' := step w' PlayPause in
  sources w'' !! fresh = Some {| buffer := b; status := Playing |} /\
  sources w'' !! S fresh = Some {| buffer := b; status := Playing |}.
Proof.
  intros Hctx Hbuf Hplay Href Hnode Hstatus fresh w'.
  assert (Hlt : (node < length (sources w))%nat) by (eapply lookup_lt_Some; eauto).
  subst fresh w'.
  destruct w as [[ch ms input ld img ab playing] c ref nodes k cs runs client].
  cbn [ui audioContextRef audioBuffer isPlaying audioSourceRef sources] in *.
  subst.
  set (w0 := {| ui := {| chat := ch; messages := ms; userInput := input;
                          loading := ld; imageUrl := img;
                          audioBuffer := Some b; isPlaying := true |};
                 audioContextRef := Some ctx; audioSourceRef := Some node;
                 sources := nodes; contextsCreated := k; calls := cs;
                 inflight := runs; ai := client |}).
  assert (Hlen : length (alter halt node nodes) = length nodes)
    by apply length_alter.
  assert (Hhalt : halt n = {| buffer := buffer n; status := Stopped |})
    by (unfold halt; now rewrite Hstatus).
  eassert (H1 : handlePlayPause w0 = _).
  { subst w0. unfold handlePlayPause. update. reflexivity. }
  eassert (H2 : handlePlayPause (handlePlayPause w0) = _).
  { rewrite H1. unfold handlePlayPause. update. reflexivity. }
  eassert (H3 : onended node (handlePlayPause (handlePlayPause w0)) = _).
  { rewrite H2. unfold onended. update.
    rewrite lookup_app_l by (rewrite Hlen; exact Hlt).
    rewrite list_lookup_alter_eq, Hnode. cbn [fmap option_fmap option_map].
    rewrite Hhalt. cbn [status buffer]. update. reflexivity. }
  unfold run. cbn [fold_left step]. rewrite H3. clear H1 H2 H3.
  assert (Hfresh : forall tail,
             (<[node := {| buffer := buffer n; status := Finished |}]>
                (alter halt node nodes ++ [{| buffer := b; status := Playing |}])
              ++ tail) !! length nodes
             = Some {| buffer := b; status := Playing |}).
  { intros tail. rewrite lookup_app_l
      by (rewrite length_insert, length_app, Hlen; cbn; lia).
    rewrite list_lookup_insert_ne by lia.
    rewrite lookup_app_r by lia. rewrite Hlen, Nat.sub_diag. reflexivity. }
  unfold render. update. cbn [playControl].
  split; [reflexivity |]. split; [reflexivity |]. split.
  { apply list_lookup_insert_eq. rewrite length_app, Hlen. lia. }
  split.
  { specialize (Hfresh []). now rewrite app_nil_r in Hfresh. }
  unfold handlePlayPause. update.
  split; [apply Hfresh |].
  rewrite lookup_app_r
    by (rewrite length_insert, length_app, Hlen; cbn; lia).
  rewrite length_insert, length_app, Hlen. cbn [length].
  replace (S (length nodes) - (length nodes + 1))%nat with 0%nat by lia.
  reflexivity.
Qed.

End LateEnded.

(** * The further properties at concrete runs *)

Lemma failed_startup_is_inert_witness :
  messages (ui (run (mount noApiKey) [Change "calm"; Send; PlayPause])) = [welcome].
Proof.
  exact (proj1 (proj2 (failed_startup_is_inert noApiKey
                         [Change "calm"; Send; PlayPause] eq_refl))).
Defined.

Lemma no_context_no_playback_witness :
  audioBuffer (ui (run (mount noAudio) fullCycle)) = None.
Proof.
  exact (proj1 (no_context_no_playback noAudio fullCycle eq_refl)).
Defined.

Lemma generating_hides_player_witness :
  playControl (render (ui (run (mount browser) scriptOnly))) = None.
Proof.
  destruct (generating_hides_player browser scriptOnly eq_refl)
    as (_ & _ & Hhidden & _).
  exact Hhidden.
Defined.

Lemma buffers_match_the_context_witness :
  exists b, audioBuffer (ui (run (mount browser) fullCycle)) = Some b /\
            sampleRate b = 24000.
Proof.
  eexists. split; [reflexivity |].
  exact (proj1 (buffers_match_the_context browser fullCycle _ (or_introl eq_refl))).
Defined.

Lemma one_source_at_a_time_witness :
  (length (emitting (run (mount browser)
                         (fullCycle ++ [PlayPause; PlayPause; Ended 0; PlayPause])))
   <= 1)%nat.
Proof.
  exact (proj1 (one_source_at_a_time browser
                  (fullCycle ++ [PlayPause; PlayPause; Ended 0; PlayPause])
                  eq_refl)).
Defined.

Lemma late_ended_event_witness :
  isPlaying (ui (run (run (mount browser) (fullCycle ++ [PlayPause]))
                     [PlayPause; PlayPause; Ended 0])) = false.
Proof.
  exact (proj1 (late_ended_event (run (mount browser) (fullCycle ++ [PlayPause]))
                  _ _ 0 _ eq_refl eq_refl eq_refl eq_refl eq_refl eq_refl)).
Defined.

Lemma blank_prompt_skips_image_witness :
  calls (step (run (mount browser) scriptOnly)
           (ImagePromptSettled 0 (Ok (" " +:+ ideographicSpace))))
  = calls (run (mount browser) scriptOnly).
Proof.
  destruct (blank_prompt_skips_image (run (mount browser) scriptOnly) 0
              (" " +:+ ideographicSpace) eq_refl eq_refl)
    as (_ & _ & Hcalls & _).
  exact Hcalls.
Defined.

Lemma bubbles_determine_messages_witness :
  messages (ui (mount browser)) = messages (ui (mount browser)).
Proof.
  exact (bubbles_determine_messages (ui (mount browser)) (ui (mount browser)) eq_refl).
Defined.

Lemma successful_cycle_witness :
  inflight (run (run (mount browser) [Change "calm"])
                (cycle "Breathe in." "a calm lake" "/9j/" "AID/fw==" [])) = [].
Proof.
  destruct (successful_cycle (run (mount browser) [Change "calm"]) _
              "Breathe in." "a calm lake" "/9j/" "AID/fw==" [] _
              eq_refl ltac:(discriminate) eq_refl eq_refl eq_refl eq_refl
              eq_refl eq_refl eq_refl eq_refl)
    as (_ & _ & _ & _ & _ & Hdone & _).
  exact Hdone.
Defined.

Lemma every_settlement_advances_witness :
  inflight (step (run (mount browser) [Change "calm"; Send])
                 (ScriptSettled 0 (Err ProviderCallError))) = [].
Proof.
  destruct (every_settlement_advances (run (mount browser) [Change "calm"; Send])
              AwaitScript (ScriptSettled 0 (Err ProviderCallError)) eq_refl eq_refl)
    as [Hend | (a' & Hnext & _)]; [exact Hend | discriminate Hnext].
Defined.
